(** * fllama: inference queue, model resource cache and tokenizer cache

    A shallow embedding of [src/fllama_inference_queue.cpp] and
    [src/fllama_tokenize.cpp].

    - [Chrono]      readings of [std::chrono::steady_clock] and the
                    [duration_cast<seconds>] the two caches apply to them;
    - [ModelCache]  the [cached_models] table of [InferenceQueue] with its
                    operations, the janitor sweep and [clear_model_cache];
    - [TaskQueue]   the [tasks] queue, the [cancel_flags] table and the worker
                    loop [process_inference];
    - [Tokenize]    [fllama_tokenize] and the tokenizer-side [model_cache];
    - [ModelCacheProofs], [TaskQueueProofs], [TokenizeProofs]
                    what is proved about each of them.

    Every function that reads the clock in the source takes the reading as an
    argument here; every call out of the repository (llama.cpp, the task
    body, [std::cout]) is recorded in an effect list carried by the state.
    Each thread's critical sections are functions on the state they guard;
    where threads meet, their interleaving is a list of such steps. *)

From stdpp Require Import base gmap list strings fin_maps.
From Stdlib Require Import ZArith.

Local Open Scope Z_scope.

(** ** The steady clock *)

Module Chrono.

(** A [steady_clock::time_point] is a tick count.  The period of
    [steady_clock] is [std::nano] in libstdc++, libc++ and the MSVC
    library. *)
Definition ticks_per_second : Z := 1000000000.

(** [duration_cast<std::chrono::seconds>(now - last).count()]: the
    conversion to a coarser integral duration truncates toward zero. *)
Definition elapsed_seconds (now last : Z) : Z :=
  (now - last) `quot` ticks_per_second.

End Chrono.

(** ** The model resource cache of [InferenceQueue] *)

Module ModelCache.
Import Chrono.

(** Pointers ([llama_model*], [llama_context*]) are addresses; [nullptr]
    is [0]. *)
Definition nullptr : Z := 0.

(** Modelled from the spec: [struct ModelResources] is declared in
    [fllama_inference_queue.h], a header outside the two files embedded here.
    The spec (section 3) gives its fields: the two handles, [last_used]
    and [active_users], "a non-negative integer".  The counter is kept as
    an unbounded integer: its declared width is in that header, and
    the code below compares it with [0] as a signed quantity. *)
Record ModelResources : Type := mkModelResources {
  model : Z;
  ctx : Z;
  last_used : Z;
  active_users : Z
}.

(** Modelled from the spec: the constructor [ModelResources(model, ctx)]
    (same header).  The spec says that a first registration
    "inserts a new entry with [active_users = 0]"; the entry is stamped
    with the time of its creation. *)
Definition new_ModelResources (now m c : Z) : ModelResources :=
  {| model := m; ctx := c; last_used := now; active_users := 0 |}.

Definition set_last_used (now : Z) (r : ModelResources) : ModelResources :=
  {| model := model r; ctx := ctx r; last_used := now;
     active_users := active_users r |}.

Definition set_active_users (n : Z) (r : ModelResources) : ModelResources :=
  {| model := model r; ctx := ctx r; last_used := last_used r;
     active_users := n |}.

(** Lines written to [std::cout] by the cache operations. *)
Inductive log_line : Type :=
| Registered (path : string)
| InUseBy (path : string) (users : Z)
| NowInUseBy (path : string) (users : Z)
| CannotFree (path : string) (users : Z)
| Freeing (path : string)
| InactiveButInUse (path : string) (elapsed users : Z)
| StillInUse (path : string) (users : Z)
| Cleared (count : nat).

(** What leaves the cache: calls into llama.cpp and log lines. *)
Inductive effect : Type :=
| llama_free (c : Z)
| llama_model_free (m : Z)
| cout (l : log_line).

(** The part of an [InferenceQueue] guarded by [models_lock], together
    with the effects performed so far (oldest first). *)
Record state : Type := mkState {
  cached_models : gmap string ModelResources;
  effects : list effect
}.

Definition with_models (m : gmap string ModelResources) (st : state) : state :=
  {| cached_models := m; effects := effects st |}.

Definition emit (e : effect) (st : state) : state :=
  {| cached_models := cached_models st; effects := effects st ++ [e] |}.

(** A freshly constructed queue: empty table, nothing done yet. *)
Definition init : state := {| cached_models := ∅; effects := [] |}.

(** [InferenceQueue::register_model], lines 70-87. *)
Definition register_model (now : Z) (model_path : string) (m c : Z)
    (st : state) : state :=
  match cached_models st !! model_path with
  | Some r =>
      with_models (<[model_path := set_last_used now r]> (cached_models st)) st
  | None =>
      emit (cout (Registered model_path))
        (with_models
           (<[model_path := new_ModelResources now m c]> (cached_models st)) st)
  end.

(** [InferenceQueue::get_cached_model], lines 89-107.  The result is the
    returned tuple and the state left behind. *)
Definition get_cached_model (now : Z) (model_path : string) (st : state)
    : (Z * Z) * state :=
  match cached_models st !! model_path with
  | Some r =>
      let r1 := set_last_used now r in
      let r2 := set_active_users (active_users r1 + 1) r1 in
      ((model r2, ctx r2),
       emit (cout (InUseBy model_path (active_users r2)))
         (with_models (<[model_path := r2]> (cached_models st)) st))
  | None => ((nullptr, nullptr), st)
  end.

(** [InferenceQueue::mark_model_used], lines 109-116. *)
Definition mark_model_used (now : Z) (model_path : string) (st : state)
    : state :=
  match cached_models st !! model_path with
  | Some r =>
      with_models (<[model_path := set_last_used now r]> (cached_models st)) st
  | None => st
  end.

(** [InferenceQueue::increment_model_users], lines 118-127. *)
Definition increment_model_users (model_path : string) (st : state) : state :=
  match cached_models st !! model_path with
  | Some r =>
      let r1 := set_active_users (active_users r + 1) r in
      emit (cout (InUseBy model_path (active_users r1)))
        (with_models (<[model_path := r1]> (cached_models st)) st)
  | None => st
  end.

(** [InferenceQueue::decrement_model_users], lines 129-142. *)
Definition decrement_model_users (now : Z) (model_path : string)
    (st : state) : state :=
  match cached_models st !! model_path with
  | Some r =>
      if 0 <? active_users r then
        let r1 := set_active_users (active_users r - 1) r in
        emit (cout (NowInUseBy model_path (active_users r1)))
          (with_models
             (<[model_path := set_last_used now r1]> (cached_models st)) st)
      else
        with_models
          (<[model_path := set_last_used now r]> (cached_models st)) st
  | None => st
  end.

(** The two conditional releases of lines 163-164 (and 40-41). *)
Definition release_handles (r : ModelResources) : list effect :=
  (if ctx r =? nullptr then [] else [llama_free (ctx r)]) ++
  (if model r =? nullptr then [] else [llama_model_free (model r)]).

(** [InferenceQueue::free_model_resources], lines 148-168. *)
Definition free_model_resources (model_path : string) (st : state) : state :=
  match cached_models st !! model_path with
  | Some r =>
      if 0 <? active_users r then
        emit (cout (CannotFree model_path (active_users r))) st
      else
        {| cached_models := delete model_path (cached_models st);
           effects := effects st ++ [cout (Freeing model_path)]
                        ++ release_handles r |}
  | None => st
  end.

(** The second loop of both the sweep and the clear, lines 202-204 and
    287-289. *)
Definition free_all (models_to_free : list string) (st : state) : state :=
  foldl (λ s path, free_model_resources path s) st models_to_free.

(** The last part of the destructor, lines 36-43: every handle that is
    left is released, whatever its use count, and the table is emptied. *)
Definition free_remaining (st : state) : state :=
  {| cached_models := ∅;
     effects := effects st ++
                flat_map (λ pair, release_handles pair.2)
                  (map_to_list (cached_models st)) |}.

(** The test of line 277 on one entry. *)
Definition clear_selects (force_clear : bool) (kv : string * ModelResources)
    : bool :=
  (active_users kv.2 =? 0) || force_clear.

(** [InferenceQueue::clear_model_cache], lines 267-293.  The first loop
    visits the table in the order of [map_to_list]; an [unordered_map]
    promises no particular order, so what is stated about the effects of a
    clear or of a sweep over several entries is stated up to their order. *)
Definition clear_visit (force_clear : bool) (acc : list string * state)
    (pair : string * ModelResources) : list string * state :=
  let path := pair.1 in
  let resources := pair.2 in
  if (active_users resources =? 0) || force_clear then
    (acc.1 ++ [path], acc.2)
  else
    (acc.1, emit (cout (StillInUse path (active_users resources))) acc.2).

Definition clear_model_cache (force_clear : bool) (st : state) : state :=
  let scanned :=
    foldl (clear_visit force_clear) ([], st) (map_to_list (cached_models st)) in
  let models_to_free := scanned.1 in
  emit (cout (Cleared (length models_to_free)))
    (free_all models_to_free scanned.2).

Section Janitor.

(** The constant [MODEL_INACTIVITY_TIMEOUT_SEC] is defined in
    [fllama_inference_queue.h]; the sweep is stated for any value of it. *)
Variable MODEL_INACTIVITY_TIMEOUT_SEC : Z.

(** The test of line 192 on one entry. *)
Definition sweep_selects (now : Z) (kv : string * ModelResources) : bool :=
  (MODEL_INACTIVITY_TIMEOUT_SEC <=? elapsed_seconds now (last_used kv.2))
  && (active_users kv.2 =? 0).

(** The body of the first loop of the sweep, lines 184-199. *)
Definition sweep_visit (now : Z) (acc : list string * state)
    (pair : string * ModelResources) : list string * state :=
  let path := pair.1 in
  let resources := pair.2 in
  let elapsed := elapsed_seconds now (last_used resources) in
  if (MODEL_INACTIVITY_TIMEOUT_SEC <=? elapsed)
     && (active_users resources =? 0) then
    (acc.1 ++ [path], acc.2)
  else if MODEL_INACTIVITY_TIMEOUT_SEC <=? elapsed then
    (acc.1,
     emit (cout (InactiveButInUse path elapsed (active_users resources)))
       acc.2)
  else acc.

(** One janitor sweep: what [cleanup_inactive_models] does between two
    waits (lines 180-204), [now] being the clock reading of line 181. *)
Definition sweep (now : Z) (st : state) : state :=
  let scanned :=
    foldl (sweep_visit now) ([], st) (map_to_list (cached_models st)) in
  free_all scanned.1 scanned.2.

(** [InferenceQueue::cleanup_inactive_models], lines 170-207: one sweep
    per wake-up, until [done] is seen.  The wake-ups are decided by other
    threads and by the 5 second timeout; here they are the list of clock
    readings taken at each of them. *)
Definition cleanup_inactive_models (wakes : list Z) (st : state) : state :=
  foldl (λ s now, sweep now s) st wakes.

(** The operations a cache goes through, for statements about every
    sequence of calls. *)
Inductive cache_op : Type :=
| Register (now : Z) (path : string) (m c : Z)
| Acquire (now : Z) (path : string)
| MarkUsed (now : Z) (path : string)
| Increment (path : string)
| Decrement (now : Z) (path : string)
| Sweep (now : Z)
| Clear (force_clear : bool).

Definition apply_op (op : cache_op) (st : state) : state :=
  match op with
  | Register now path m c => register_model now path m c st
  | Acquire now path => (get_cached_model now path st).2
  | MarkUsed now path => mark_model_used now path st
  | Increment path => increment_model_users path st
  | Decrement now path => decrement_model_users now path st
  | Sweep now => sweep now st
  | Clear force_clear => clear_model_cache force_clear st
  end.

Definition run_ops (ops : list cache_op) (st : state) : state :=
  foldl (λ s op, apply_op op s) st ops.

End Janitor.

(** The entries of a table all have a non-negative use count. *)
Definition counts_nonneg (st : state) : Prop :=
  ∀ path r, cached_models st !! path = Some r → 0 ≤ active_users r.

(** Two table slots that agree except, possibly, on [last_used]. *)
Definition same_up_to_last_used (a b : option ModelResources) : Prop :=
  match a, b with
  | Some r, Some r' =>
      model r = model r' ∧ ctx r = ctx r' ∧ active_users r = active_users r'
  | None, None => True
  | _, _ => False
  end.

(** *** Sample tables *)

(** One model, registered at time [0] and held by one user. *)
Definition busy_cache : state :=
  (get_cached_model 0 "m.gguf" (register_model 0 "m.gguf" 1 2 init)).2.

(** The same model after its user released it, still at time [0]. *)
Definition idle_cache : state := decrement_model_users 0 "m.gguf" busy_cache.

(** *** Further vocabulary for statements about the cache *)

(** The operations that never remove an entry. *)
Definition keeps_entries (op : cache_op) : bool :=
  match op with
  | Sweep _ | Clear _ => false
  | _ => true
  end.

(** The operations that stamp [path] with the time [t]. *)
Definition touches (t : Z) (path : string) (op : cache_op) : bool :=
  match op with
  | Register now p _ _ | Acquire now p | MarkUsed now p | Decrement now p =>
      bool_decide (now = t ∧ p = path)
  | _ => false
  end.

(** A call that hands a null pointer to llama.cpp. *)
Definition frees_null (e : effect) : bool :=
  match e with
  | llama_free c => c =? nullptr
  | llama_model_free m => m =? nullptr
  | cout _ => false
  end.

(** [st'] has the effects of [st], followed by calls none of which hands a
    null pointer to llama.cpp. *)
Definition extends_without_null (st st' : state) : Prop :=
  ∃ more, effects st' = effects st ++ more ∧
          Forall (λ e, frees_null e = false) more.

(** A release of [path]. *)
Definition is_release (path : string) (op : cache_op) : bool :=
  match op with
  | Decrement _ p => bool_decide (p = path)
  | _ => false
  end.

Definition releases (path : string) (ops : list cache_op) : nat :=
  length (filter (λ op, is_release path op = true) ops).

(** A call that releases a handle, as opposed to a log line. *)
Definition is_release_call (e : effect) : bool :=
  match e with
  | llama_free _ | llama_model_free _ => true
  | cout _ => false
  end.

End ModelCache.

(** ** The task queue and the worker loop of [InferenceQueue] *)

Module TaskQueue.

(** How a call of a task body ends: it returns, it throws something derived
    from [std::exception] (caught at line 253), or it throws anything else
    (caught at line 257). *)
Inductive outcome : Type :=
| Returned
| ThrewStdException (what : string)
| ThrewOther.

Section Worker.

(** What a task body reads and writes: everything outside the queue and its
    flags (the model, the callback's receiver, the model resource cache). *)
Context {World : Type}.

(** The request and callback types come from a header that is not part of
    the two files embedded here; the queue reads only the [request_id]
    field. *)
Context {fllama_inference_request fllama_inference_callback : Type}.
Variable request_id_of : fllama_inference_request → Z.

(** [fllama_inference_sync] is defined outside the two source files; it is
    any function of the request, the callback and the world. *)
Variable fllama_inference_sync :
  fllama_inference_request → fllama_inference_callback →
  World → outcome * World.

(** [TaskWrapper]: a callable and the id of the request it serves. *)
Record TaskWrapper : Type := mkTaskWrapper {
  task : World → outcome * World;
  request_id : Z
}.

(** What the worker thread does that can be seen from outside, with the two
    ways a dequeued task is disposed of. *)
Inductive worker_event : Type :=
| CoutProcessing (id : Z)
| Discarded (t : TaskWrapper)
| Invoked (t : TaskWrapper)
| CerrException (what : string)
| CerrUnknownException
| NotifyCleanup.

(** Where the worker thread stands: at the wait of line 217, between the
    dequeue and the cancellation check (holding the task it popped), or past
    the [break] of line 220. *)
Inductive worker_pc : Type :=
| Waiting
| Holding (t : TaskWrapper)
| Exited.

Record machine : Type := mkMachine {
  tasks : list TaskWrapper;
  cancel_flags : gmap Z bool;
  done : bool;
  pc : worker_pc;
  world : World;
  trace : list worker_event
}.

Definition set_tasks (ts : list TaskWrapper) (m : machine) : machine :=
  {| tasks := ts; cancel_flags := cancel_flags m; done := done m;
     pc := pc m; world := world m; trace := trace m |}.

Definition set_cancel_flags (fs : gmap Z bool) (m : machine) : machine :=
  {| tasks := tasks m; cancel_flags := fs; done := done m;
     pc := pc m; world := world m; trace := trace m |}.

Definition set_done (b : bool) (m : machine) : machine :=
  {| tasks := tasks m; cancel_flags := cancel_flags m; done := b;
     pc := pc m; world := world m; trace := trace m |}.

Definition set_pc (p : worker_pc) (m : machine) : machine :=
  {| tasks := tasks m; cancel_flags := cancel_flags m; done := done m;
     pc := p; world := world m; trace := trace m |}.

Definition set_world (w : World) (m : machine) : machine :=
  {| tasks := tasks m; cancel_flags := cancel_flags m; done := done m;
     pc := pc m; world := w; trace := trace m |}.

Definition record (e : worker_event) (m : machine) : machine :=
  {| tasks := tasks m; cancel_flags := cancel_flags m; done := done m;
     pc := pc m; world := world m; trace := trace m ++ [e] |}.

(** The queue as the constructor leaves it (lines 11-14), the worker at its
    first wait. *)
Definition init (w : World) : machine :=
  {| tasks := []; cancel_flags := ∅; done := false; pc := Waiting;
     world := w; trace := [] |}.

(** The task built by [enqueue], lines 49-51. *)
Definition make_task (request : fllama_inference_request)
    (callback : fllama_inference_callback) : TaskWrapper :=
  {| task := fllama_inference_sync request callback;
     request_id := request_id_of request |}.

(** [InferenceQueue::enqueue], lines 46-54. *)
Definition enqueue (request : fllama_inference_request)
    (callback : fllama_inference_callback) (m : machine) : machine :=
  set_tasks (tasks m ++ [make_task request callback]) m.

(** [InferenceQueue::cancel], lines 56-62. *)
Definition cancel (id : Z) (m : machine) : machine :=
  set_cancel_flags (<[id := true]> (cancel_flags m)) m.

(** The test of lines 66-67 and 238-239: the id is in the table and its
    flag is set. *)
Definition flag_set (id : Z) (m : machine) : bool :=
  match cancel_flags m !! id with
  | Some b => b
  | None => false
  end.

(** [InferenceQueue::is_cancelled], lines 64-68. *)
Definition is_cancelled (id : Z) (m : machine) : bool := flag_set id m.

(** The two locked blocks at the start of the destructor, lines 17-20 and
    21-24; what follows them runs after the worker has exited. *)
Definition clear_flags (m : machine) : machine := set_cancel_flags ∅ m.

Definition signal_done (m : machine) : machine := set_done true m.

(** The first half of a turn of the worker loop, lines 215-234: wait, leave
    on shutdown with an empty queue, else pop the front task. *)
Definition worker_dequeue (m : machine) : machine :=
  match pc m with
  | Waiting =>
      match tasks m with
      | [] => if done m then set_pc Exited m else m
      | front :: rest =>
          record (CoutProcessing (request_id front))
            (set_pc (Holding front) (set_tasks rest m))
      end
  | _ => m
  end.

(** The handlers of lines 253-259. *)
Definition log_failure (res : outcome) (m : machine) : machine :=
  match res with
  | Returned => m
  | ThrewStdException what => record (CerrException what) m
  | ThrewOther => record CerrUnknownException m
  end.

(** The second half, lines 236-264: check the flag, then either drop the
    task and its flag or call it, log what it threw and notify the
    janitor. *)
Definition worker_execute (m : machine) : machine :=
  match pc m with
  | Holding t =>
      let current_request_id := request_id t in
      if flag_set current_request_id m then
        set_pc Waiting
          (record (Discarded t)
             (set_cancel_flags (delete current_request_id (cancel_flags m)) m))
      else
        let ran := task t (world m) in
        set_pc Waiting
          (record NotifyCleanup
             (log_failure ran.1 (record (Invoked t) (set_world ran.2 m))))
  | _ => m
  end.

(** [InferenceQueue::process_inference], lines 209-265, run with no other
    thread interfering, for at most [fuel] turns.  It stops early at the
    [break], and at a wait that nothing will end. *)
Fixpoint process_inference (fuel : nat) (m : machine) : machine :=
  match fuel with
  | O => m
  | S fuel' =>
      let m1 := worker_dequeue m in
      match pc m1 with
      | Holding _ => process_inference fuel' (worker_execute m1)
      | _ => m1
      end
  end.

(** Threads interleave at the granularity of the locked blocks: calls of
    the public interface, the two blocks of the destructor, and the two
    halves of a worker turn.  The check of lines 237-244 holds
    [inference_lock] while [cancel] holds [queue_lock]; taking the check as
    one step next to [cancel] is an assumption of this model, not something
    the two locks provide. *)
Inductive action : Type :=
| Enqueue (request : fllama_inference_request)
          (callback : fllama_inference_callback)
| Cancel (id : Z)
| ClearFlags
| SignalDone
| WorkerDequeue
| WorkerExecute.

Definition step (a : action) (m : machine) : machine :=
  match a with
  | Enqueue request callback => enqueue request callback m
  | Cancel id => cancel id m
  | ClearFlags => clear_flags m
  | SignalDone => signal_done m
  | WorkerDequeue => worker_dequeue m
  | WorkerExecute => worker_execute m
  end.

Definition run (schedule : list action) (m : machine) : machine :=
  foldl (λ s a, step a s) m schedule.

(** Calls made by producers, as opposed to the worker and the destructor. *)
Definition producer_call (a : action) : bool :=
  match a with
  | Enqueue _ _ | Cancel _ => true
  | _ => false
  end.

Definition is_cancel (a : action) : bool :=
  match a with
  | Cancel _ => true
  | _ => false
  end.

(** The tasks a schedule enqueues, in the order of the calls. *)
Definition enqueued (schedule : list action) : list TaskWrapper :=
  omap (λ a, match a with
             | Enqueue request callback => Some (make_task request callback)
             | _ => None
             end) schedule.

Definition disposed_of (e : worker_event) : option TaskWrapper :=
  match e with
  | Discarded t | Invoked t => Some t
  | _ => None
  end.

Definition called (e : worker_event) : option TaskWrapper :=
  match e with
  | Invoked t => Some t
  | _ => None
  end.

(** The tasks the worker has finished with, and those among them whose body
    it called, both in the order it took them. *)
Definition handled (m : machine) : list TaskWrapper := omap disposed_of (trace m).
Definition invoked (m : machine) : list TaskWrapper := omap called (trace m).

(** The task the worker holds between its two halves, if any. *)
Definition held (m : machine) : list TaskWrapper :=
  match pc m with
  | Holding t => [t]
  | _ => []
  end.

(** The tasks that are in the system: handled, held or still queued. *)
Definition all_tasks (m : machine) : list TaskWrapper :=
  handled m ++ held m ++ tasks m.

(** No flag in the table is set. *)
Definition no_flag_set (m : machine) : Prop :=
  ∀ id, cancel_flags m !! id ≠ Some true.

(** *** Further vocabulary for statements about schedules *)

Definition is_clear_flags (a : action) : bool :=
  match a with
  | ClearFlags => true
  | _ => false
  end.

Definition is_notify (e : worker_event) : bool :=
  match e with
  | NotifyCleanup => true
  | _ => false
  end.

Definition is_processing_line (e : worker_event) : bool :=
  match e with
  | CoutProcessing _ => true
  | _ => false
  end.

(** How often the worker has signalled [cleanup_cond_var] (line 263), and
    how many "Processing request" lines it has written (line 234). *)
Definition notifications (m : machine) : nat :=
  length (filter (λ e, is_notify e = true) (trace m)).

Definition processing_lines (m : machine) : nat :=
  length (filter (λ e, is_processing_line e = true) (trace m)).

(** The world after the bodies of [ts] have been called in turn, each on
    what the previous one left, whether it returned or threw. *)
Definition replay (w : World) (ts : list TaskWrapper) : World :=
  foldl (λ w' t, (task t w').2) w ts.

(** The queued tasks that a given flag table lets through, in queue order:
    a set flag stops the first task that carries its id, and is used up by
    it. *)
Fixpoint survivors (flags : gmap Z bool) (ts : list TaskWrapper)
    : list TaskWrapper :=
  match ts with
  | [] => []
  | t :: rest =>
      match flags !! request_id t with
      | Some true => survivors (delete (request_id t) flags) rest
      | _ => t :: survivors flags rest
      end
  end.

(** Steps of threads other than the worker. *)
Definition other_thread_call (a : action) : bool :=
  match a with
  | WorkerDequeue | WorkerExecute => false
  | _ => true
  end.

(** Among them, those that do not empty the flag table: every call of the
    public interface and the destructor's [done = true], but not its
    [cancel_flags.clear()]. *)
Definition bystander_call (a : action) : bool :=
  match a with
  | Enqueue _ _ | Cancel _ | SignalDone => true
  | _ => false
  end.

(** C4 as the claim words it: a task whose flag is set when the worker pops
    it is never run and its flag is erased, whatever other threads do before
    the worker reaches its check. *)
Definition flagged_task_is_never_run : Prop :=
  ∀ (m : machine) (t : TaskWrapper) (rest : list TaskWrapper)
    (others : list action),
    pc m = Waiting → tasks m = t :: rest →
    cancel_flags m !! request_id t = Some true →
    Forall (λ a, other_thread_call a = true) others →
    invoked (worker_execute (run others (worker_dequeue m))) = invoked m ∧
    world (worker_execute (run others (worker_dequeue m))) = world m.

End Worker.

(** *** A sample instance *)

(** Requests are numbers that serve as their own id; the world is the list
    of results delivered so far; request [2] fails. *)
Definition sample_sync (request : Z) (callback : unit) (w : list Z)
    : outcome * list Z :=
  if request =? 2 then (ThrewStdException "bad request", w)
  else (Returned, w ++ [request]).

Definition sample_task (request : Z) : TaskWrapper :=
  make_task id sample_sync request ().

Definition sample_run (schedule : list action) : machine :=
  run id sample_sync schedule (init []).

End TaskQueue.

(** ** The tokenizer and its model cache *)

Module Tokenize.
Import Chrono.

Definition nullptr : Z := 0.

(** [struct ModelCacheEntry], lines 89-92.  The [shared_ptr] is the address
    it owns. *)
Record ModelCacheEntry : Type := mkModelCacheEntry {
  model : Z;
  last_access : Z
}.

(** Calls into llama.cpp, and the one log line of [fllama_tokenize]. *)
Inductive effect : Type :=
| llama_backend_init
| llama_load_model_from_file (path : string)
| llama_free_model (m : Z)
| llama_backend_free
| cout_unable_to_load.

(** The global [model_cache] of line 95 and the effects performed so far
    (oldest first). *)
Record state : Type := mkState {
  model_cache : gmap string ModelCacheEntry;
  effects : list effect
}.

Definition set_model_cache (c : gmap string ModelCacheEntry) (st : state)
    : state :=
  {| model_cache := c; effects := effects st |}.

Definition emit (e : effect) (st : state) : state :=
  {| model_cache := model_cache st; effects := effects st ++ [e] |}.

(** [model_cache.erase(key)], line 110.  In a sequential run the table holds
    the only [shared_ptr] to a cached model (the copy returned at line 47 dies
    at the end of that statement), so erasing an entry runs the deleter of
    line 144. *)
Definition erase (key : string) (st : state) : state :=
  match model_cache st !! key with
  | Some e =>
      {| model_cache := delete key (model_cache st);
         effects := effects st ++ [llama_free_model (model e)] |}
  | None => st
  end.

(** The body of the first loop of [cleanup_cache], lines 101-107. *)
Definition cleanup_visit (now : Z) (to_erase : list string)
    (entry : string * ModelCacheEntry) : list string :=
  if 30 <? elapsed_seconds now (last_access entry.2)
  then to_erase ++ [entry.1] else to_erase.

(** [cleanup_cache], lines 97-112.  As for the other cache, the table is
    visited in the order of [map_to_list], which need not be the order in
    which an [unordered_map] hands out its entries: when several entries are
    evicted, the order of their [llama_free_model] calls is not meaningful,
    and statements about them are up to permutation. *)
Definition cleanup_cache (now : Z) (st : state) : state :=
  let to_erase :=
    foldl (cleanup_visit now) [] (map_to_list (model_cache st)) in
  foldl (λ s key, erase key s) st to_erase.

(** [_get_or_load_model], lines 114-150.  [load] is what
    [llama_load_model_from_file] returns for a path at the time of the call
    ([nullptr] when it fails); [now] is the clock reading of the cleanup and
    [now'] the later one that stamps the entry. *)
Definition _get_or_load_model (load : string → Z) (now now' : Z)
    (model_path : string) (st : state) : Z * state :=
  let st1 := cleanup_cache now st in
  match model_cache st1 !! model_path with
  | Some e =>
      (model e,
       set_model_cache
         (<[model_path := {| model := model e; last_access := now' |}]>
            (model_cache st1)) st1)
  | None =>
      let st2 :=
        emit (llama_load_model_from_file model_path)
          (emit llama_backend_init st1) in
      let raw_model := load model_path in
      if raw_model =? nullptr then (nullptr, st2)
      else
        (raw_model,
         emit llama_backend_free
           (set_model_cache
              (<[model_path := {| model := raw_model; last_access := now' |}]>
                 (model_cache st2)) st2))
  end.

(** The fields of [struct fllama_tokenize_request] that the function
    reads. *)
Record fllama_tokenize_request : Type := mkRequest {
  model_path : string;
  input : string
}.

Section Tokenizer.

(** The width of [size_t]: 64 on the native targets, 32 under Emscripten. *)
Variable size_t_bits : Z.

(** [::llama_tokenize] of llama.cpp: from the model whose vocabulary is
    used, the text, its length and the capacity of the token buffer, the [int]
    it returns (the number of tokens, or a negative number). *)
Variable llama_tokenize : Z → string → Z → Z → Z.

(** Conversion of an integer value to [size_t]. *)
Definition to_size_t (v : Z) : Z := v `mod` 2 ^ size_t_bits.

(** [fllama_tokenize], lines 35-87.  The call of [llama_log_set] only
    silences llama.cpp's own logging. *)
Definition fllama_tokenize (load : string → Z) (now now' : Z)
    (request : fllama_tokenize_request) (st : state) : Z * state :=
  let got := _get_or_load_model load now now' (model_path request) st in
  if got.1 =? nullptr then
    (to_size_t (-1), emit cout_unable_to_load got.2)
  else
    let input_len := Z.of_nat (String.length (input request)) in
    let capacity := to_size_t (input_len + 3) in
    let n_tokens := llama_tokenize got.1 (input request) input_len capacity in
    if n_tokens <? 0 then (0, got.2)
    else (to_size_t n_tokens, got.2).

End Tokenizer.

(** C9 as the claim words it, with the elapsed time taken as the time that
    really passed: every entry whose last access lies more than 30 seconds
    back is evicted by the lookup, so that asking for its path loads the
    model anew. *)
Definition reloads_after_30_seconds : Prop :=
  ∀ (load : string → Z) (now now' : Z) (path : string) (st : state)
    (e : ModelCacheEntry),
    model_cache st !! path = Some e →
    30 * ticks_per_second < now - last_access e →
    model_cache (cleanup_cache now st) !! path = None ∧
    llama_load_model_from_file path ∈
      effects (_get_or_load_model load now now' path st).2.

(** A table holding ["x.gguf"], loaded at time [0] at address [7]. *)
Definition warm_cache : state :=
  (_get_or_load_model (λ _, 7) 0 0 "x.gguf"
     {| model_cache := ∅; effects := [] |}).2.

(** A tokenizer that counts one token per character, and fails on the
    empty text. *)
Definition sample_tokenizer (m : Z) (text : string) (len capacity : Z) : Z :=
  if len =? 0 then -1 else len.

(** *** Further vocabulary for statements about the tokenizer cache *)

(** The table of a process that has not tokenized anything yet. *)
Definition empty_cache : state := {| model_cache := ∅; effects := [] |}.

(** One call of [_get_or_load_model]: what the loader would return at that
    time, the two clock readings, and the path asked for. *)
Record lookup_call : Type := mkLookupCall {
  call_load : string → Z;
  call_now : Z;
  call_stamp : Z;
  call_path : string
}.

Definition run_lookups (calls : list lookup_call) (st : state) : state :=
  foldl (λ s c,
           (_get_or_load_model (call_load c) (call_now c) (call_stamp c)
              (call_path c) s).2) st calls.

(** Repeated lookups of one path at the given pairs of clock readings; the
    addresses returned, in order, and the state left. *)
Fixpoint serve (load : string → Z) (path : string) (times : list (Z * Z))
    (st : state) : list Z * state :=
  match times with
  | [] => ([], st)
  | t :: rest =>
      let got := _get_or_load_model load t.1 t.2 path st in
      let later := serve load path rest got.2 in
      (got.1 :: later.1, later.2)
  end.

(** Each lookup comes less than 31 seconds after the stamp left by the one
    before it, [prev] being the stamp found at the start. *)
Fixpoint in_time (prev : Z) (times : list (Z * Z)) : Prop :=
  match times with
  | [] => True
  | t :: rest => t.1 - prev < 31 * ticks_per_second ∧ in_time t.2 rest
  end.

Definition is_load (e : effect) : bool :=
  match e with
  | llama_load_model_from_file _ => true
  | _ => false
  end.

(** No entry of the table holds a null model. *)
Definition no_null_entries (st : state) : Prop :=
  ∀ k e, model_cache st !! k = Some e → model e ≠ nullptr.

(** The entries a cleanup at [now] evicts, as the test of line 104 on one
    entry. *)
Definition expired (now : Z) (kv : string * ModelCacheEntry) : Prop :=
  30 < elapsed_seconds now (last_access kv.2).

#[global] Instance expired_dec (now : Z) (kv : string * ModelCacheEntry) :
  Decision (expired now kv).
Proof. unfold expired. apply _. Defined.

End Tokenize.

(** ** Properties of the model resource cache *)

Module ModelCacheProofs.
Import Chrono ModelCache.

(** *** Facts about single operations *)

Lemma elapsed_seconds_threshold (T now last : Z) :
  0 < T →
  T ≤ elapsed_seconds now last ↔ T * ticks_per_second ≤ now - last.
Proof.
  intros HT. unfold elapsed_seconds, ticks_per_second.
  destruct (Z_lt_le_dec (now - last) 0) as [Hneg | Hpos].
  - assert ((now - last) `quot` 1000000000 ≤ 0)
      by (apply Z.quot_le_upper_bound; lia).
    lia.
  - rewrite Z.quot_div_nonneg by lia.
    split; intros H.
    + pose proof (Z.mul_div_le (now - last) 1000000000 ltac:(lia)). nia.
    + apply Z.div_le_lower_bound; lia.
Qed.

Lemma free_model_resources_lookup (path k : string) (st : state) :
  cached_models (free_model_resources path st) !! k =
  match cached_models st !! k with
  | Some r => if decide (k = path ∧ active_users r ≤ 0) then None else Some r
  | None => None
  end.
Proof.
  unfold free_model_resources.
  destruct (decide (k = path)) as [-> | Hne].
  - destruct (cached_models st !! path) as [r |] eqn:Hr; simpl.
    + destruct (Z.ltb_spec 0 (active_users r)); simpl.
      * rewrite Hr. rewrite decide_False by lia. done.
      * rewrite lookup_delete_eq. rewrite decide_True by (split; [done | lia]). done.
    + by rewrite Hr.
  - destruct (cached_models st !! path) as [r |] eqn:Hr; simpl.
    + destruct (Z.ltb_spec 0 (active_users r)); simpl.
      * destruct (cached_models st !! k); [| done].
        by rewrite decide_False by (intros [? _]; done).
      * rewrite lookup_delete_ne by done.
        destruct (cached_models st !! k); [| done].
        by rewrite decide_False by (intros [? _]; done).
    + destruct (cached_models st !! k); [| done].
      by rewrite decide_False by (intros [? _]; done).
Qed.

Lemma free_model_resources_effects (path : string) (st : state) :
  ∃ more, effects (free_model_resources path st) = effects st ++ more.
Proof.
  unfold free_model_resources.
  destruct (cached_models st !! path) as [r |]; simpl.
  - destruct (0 <? active_users r); simpl; eauto.
  - exists []. by rewrite app_nil_r.
Qed.

Lemma free_model_resources_releases (path : string) (st : state) r :
  cached_models st !! path = Some r → active_users r ≤ 0 →
  ∀ e, e ∈ release_handles r → e ∈ effects (free_model_resources path st).
Proof.
  intros Hr Hau e He. unfold free_model_resources. rewrite Hr.
  destruct (Z.ltb_spec 0 (active_users r)); [lia |]. simpl.
  apply elem_of_app; right. by apply list_elem_of_further.
Qed.

Lemma free_all_effects (l : list string) (st : state) :
  ∃ more, effects (free_all l st) = effects st ++ more.
Proof.
  revert st. induction l as [| p l IH]; intros st; simpl.
  - exists []. by rewrite app_nil_r.
  - destruct (IH (free_model_resources p st)) as [m2 H2].
    destruct (free_model_resources_effects p st) as [m1 H1].
    exists (m1 ++ m2). unfold free_all in *. simpl.
    rewrite H2, H1. by rewrite app_assoc.
Qed.

Lemma free_all_lookup (l : list string) (st : state) (k : string) :
  cached_models (free_all l st) !! k =
  match cached_models st !! k with
  | Some r => if decide (k ∈ l ∧ active_users r ≤ 0) then None else Some r
  | None => None
  end.
Proof.
  revert st. induction l as [| p l IH]; intros st.
  - simpl. by destruct (cached_models st !! k).
  - unfold free_all in *. simpl. rewrite IH, free_model_resources_lookup.
    destruct (cached_models st !! k) as [r |]; [| done].
    destruct (decide (k = p ∧ active_users r ≤ 0)) as [[-> Hle] | Hn].
    + rewrite decide_True; [done |]. split; [apply list_elem_of_here | done].
    + destruct (decide (k ∈ l ∧ active_users r ≤ 0)) as [[Hin Hle] | Hn'].
      * rewrite decide_True; [done |]. split; [by apply list_elem_of_further | done].
      * rewrite decide_False; [done |].
        intros [Hin Hle]. apply elem_of_cons in Hin as [-> | Hin]; tauto.
Qed.

Lemma free_all_releases (l : list string) (st : state) (k : string) r :
  k ∈ l → cached_models st !! k = Some r → active_users r ≤ 0 →
  ∀ e, e ∈ release_handles r → e ∈ effects (free_all l st).
Proof.
  revert st. induction l as [| p l IH]; intros st Hin Hr Hau e He.
  - by apply not_elem_of_nil in Hin.
  - unfold free_all in *. simpl.
    destruct (decide (k = p)) as [-> | Hne].
    + destruct (free_all_effects l (free_model_resources p st)) as [more Hm].
      unfold free_all in Hm. rewrite Hm. apply elem_of_app. left.
      by apply (free_model_resources_releases p st r).
    + apply elem_of_cons in Hin as [-> | Hin]; [done |].
      apply IH; try done.
      rewrite free_model_resources_lookup, Hr.
      by rewrite decide_False by (intros [? _]; done).
Qed.

(** The destructor, unlike [free_model_resources], does not look at the
    use count. *)
Lemma free_remaining_releases (st : state) (k : string) (r : ModelResources) :
  cached_models st !! k = Some r →
  cached_models (free_remaining st) = ∅ ∧
  ∀ e, e ∈ release_handles r → e ∈ effects (free_remaining st).
Proof.
  intros Hr. split; [done |]. intros e He. unfold free_remaining. simpl.
  apply elem_of_app. right. apply list_elem_of_In, in_flat_map.
  exists (k, r). split; [| by apply list_elem_of_In].
  by apply list_elem_of_In, elem_of_map_to_list.
Qed.

(** *** The scanning loops *)

(** Both first loops have the same shape: an entry is either pushed on
    [models_to_free] or only logged; the table itself is not touched. *)
Lemma scan_spec (visit : list string * state → string * ModelResources →
                         list string * state)
    (selects : string * ModelResources → bool) :
  (∀ acc kv, (visit acc kv).1 = if selects kv then acc.1 ++ [kv.1] else acc.1) →
  (∀ acc kv, cached_models (visit acc kv).2 = cached_models acc.2) →
  (∀ acc kv, ∃ more, effects (visit acc kv).2 = effects acc.2 ++ more) →
  ∀ entries acc,
    (∀ k, k ∈ (foldl visit acc entries).1 ↔
          k ∈ acc.1 ∨ ∃ r, (k, r) ∈ entries ∧ selects (k, r) = true) ∧
    cached_models (foldl visit acc entries).2 = cached_models acc.2 ∧
    ∃ more, effects (foldl visit acc entries).2 = effects acc.2 ++ more.
Proof.
  intros Hsel Hmod Heff. induction entries as [| [p r] entries IH]; intros acc.
  - simpl. split; [| split; [done | exists []; by rewrite app_nil_r]].
    intros k. split; [by left |].
    intros [? | (r & Hin & _)]; [done | by apply not_elem_of_nil in Hin].
  - simpl. destruct (IH (visit acc (p, r))) as (Hmem & Hm & more & He).
    split; [| split].
    + intros k. rewrite Hmem, Hsel. split.
      * intros [Hin | (r' & Hin & Hs)].
        -- destruct (selects (p, r)) eqn:Hp; [| by left].
           apply elem_of_app in Hin as [Hin | Hin]; [by left |].
           apply list_elem_of_singleton in Hin as ->. right. exists r.
           split; [apply list_elem_of_here | done].
        -- right. exists r'. split; [by apply list_elem_of_further | done].
      * intros [Hin | (r' & Hin & Hs)].
        -- left. destruct (selects (p, r)); [apply elem_of_app; by left | done].
        -- apply elem_of_cons in Hin as [Heq | Hin].
           ++ injection Heq as -> ->. left. rewrite Hs.
              apply elem_of_app. right. by apply list_elem_of_singleton.
           ++ right. by exists r'.
    + by rewrite Hm, Hmod.
    + destruct (Heff acc (p, r)) as [m1 H1].
      exists (m1 ++ more). by rewrite He, H1, app_assoc.
Qed.

Lemma clear_scan (force_clear : bool) (st : state) :
  let scanned :=
    foldl (clear_visit force_clear) ([], st) (map_to_list (cached_models st)) in
  (∀ k, k ∈ scanned.1 ↔
        ∃ r, cached_models st !! k = Some r ∧
             (active_users r = 0 ∨ force_clear = true)) ∧
  cached_models scanned.2 = cached_models st ∧
  ∃ more, effects scanned.2 = effects st ++ more.
Proof.
  destruct (scan_spec (clear_visit force_clear) (clear_selects force_clear))
    with (entries := map_to_list (cached_models st))
         (acc := (@nil string, st)) as (Hmem & Hm & He).
  - intros acc kv. unfold clear_visit, clear_selects.
    by destruct (_ || _).
  - intros acc kv. unfold clear_visit. by destruct (_ || _).
  - intros acc kv. unfold clear_visit. destruct (_ || _); simpl; eauto.
    exists []. by rewrite app_nil_r.
  - simpl. split; [| done]. intros k. rewrite Hmem. simpl. split.
    + intros [Hin | (r & Hin & Hs)]; [by apply not_elem_of_nil in Hin |].
      exists r. split; [by apply elem_of_map_to_list |].
      unfold clear_selects in Hs. simpl in Hs.
      apply orb_true_iff in Hs as [Hs | Hs]; [left; lia | by right].
    + intros (r & Hr & Hs). right. exists r.
      split; [by apply elem_of_map_to_list |].
      unfold clear_selects. simpl. apply orb_true_iff.
      destruct Hs as [Hs | Hs]; [left; lia | by right].
Qed.

Lemma clear_model_cache_lookup (force_clear : bool) (st : state) (k : string) :
  cached_models (clear_model_cache force_clear st) !! k =
  match cached_models st !! k with
  | Some r =>
      if decide (active_users r = 0 ∨
                 (force_clear = true ∧ active_users r ≤ 0))
      then None else Some r
  | None => None
  end.
Proof.
  destruct (clear_scan force_clear st) as (Hmem & Hm & _).
  unfold clear_model_cache. simpl. rewrite free_all_lookup, Hm.
  destruct (cached_models st !! k) as [r |] eqn:Hr; [| done].
  apply decide_ext. rewrite Hmem. split.
  - intros [(r' & Hr' & Hs) Hle]. assert (r' = r) as -> by congruence.
    destruct Hs; [by left | by right].
  - intros [H0 | [Hf Hle]].
    + split; [| lia]. exists r. by split; [| left].
    + split; [| done]. exists r. by split; [| right].
Qed.

(** The force flag changes the log, never the table. *)
Lemma clear_model_cache_force_irrelevant (st : state) :
  counts_nonneg st →
  cached_models (clear_model_cache true st) =
  cached_models (clear_model_cache false st).
Proof.
  intros Hinv. apply map_eq. intros k. rewrite !clear_model_cache_lookup.
  destruct (cached_models st !! k) as [r |] eqn:Hr; [| done].
  apply decide_ext. specialize (Hinv k r Hr). split.
  - intros [? | [_ ?]]; left; lia.
  - intros [? | [? _]]; [by left | done].
Qed.

Section Sweep.

Variable T : Z.

Lemma sweep_scan (now : Z) (st : state) :
  let scanned :=
    foldl (sweep_visit T now) ([], st) (map_to_list (cached_models st)) in
  (∀ k, k ∈ scanned.1 ↔
        ∃ r, cached_models st !! k = Some r ∧
             T ≤ elapsed_seconds now (last_used r) ∧ active_users r = 0) ∧
  cached_models scanned.2 = cached_models st ∧
  ∃ more, effects scanned.2 = effects st ++ more.
Proof.
  destruct (scan_spec (sweep_visit T now) (sweep_selects T now))
    with (entries := map_to_list (cached_models st))
         (acc := (@nil string, st)) as (Hmem & Hm & He).
  - intros acc kv. unfold sweep_visit, sweep_selects.
    destruct (_ && _); [done |]. by destruct (T <=? _).
  - intros acc kv. unfold sweep_visit.
    destruct (_ && _); [done |]. by destruct (T <=? _).
  - intros acc kv. unfold sweep_visit.
    destruct (_ && _); [exists []; by rewrite app_nil_r |].
    destruct (T <=? _); simpl; eauto. exists []. by rewrite app_nil_r.
  - simpl. split; [| done]. intros k. rewrite Hmem. simpl. split.
    + intros [Hin | (r & Hin & Hs)]; [by apply not_elem_of_nil in Hin |].
      exists r. split; [by apply elem_of_map_to_list |].
      unfold sweep_selects in Hs. simpl in Hs.
      apply andb_true_iff in Hs as [H1 H2]. lia.
    + intros (r & Hr & H1 & H2). right. exists r.
      split; [by apply elem_of_map_to_list |].
      unfold sweep_selects. simpl. apply andb_true_iff. lia.
Qed.

Lemma sweep_lookup (now : Z) (st : state) (k : string) :
  cached_models (sweep T now st) !! k =
  match cached_models st !! k with
  | Some r =>
      if decide (T ≤ elapsed_seconds now (last_used r) ∧ active_users r = 0)
      then None else Some r
  | None => None
  end.
Proof.
  destruct (sweep_scan now st) as (Hmem & Hm & _).
  unfold sweep. rewrite free_all_lookup, Hm.
  destruct (cached_models st !! k) as [r |] eqn:Hr; [| done].
  apply decide_ext. rewrite Hmem. split.
  - intros [(r' & Hr' & Hs) Hle]. by assert (r' = r) as -> by congruence.
  - intros [H1 H2]. split; [| lia]. by exists r.
Qed.

Lemma sweep_releases (now : Z) (st : state) (k : string) r :
  cached_models st !! k = Some r →
  T ≤ elapsed_seconds now (last_used r) → active_users r = 0 →
  ∀ e, e ∈ release_handles r → e ∈ effects (sweep T now st).
Proof.
  intros Hr H1 H2 e He.
  destruct (sweep_scan now st) as (Hmem & Hm & _).
  unfold sweep. apply (free_all_releases _ _ k r); [| by rewrite Hm | lia | done].
  apply Hmem. by exists r.
Qed.

End Sweep.

(** *** Preservation of [counts_nonneg] *)

Lemma counts_nonneg_insert (st : state) (p : string) (r : ModelResources) :
  counts_nonneg st → 0 ≤ active_users r →
  counts_nonneg (with_models (<[p := r]> (cached_models st)) st).
Proof.
  intros Hinv Hr k r'. simpl. rewrite lookup_insert.
  case_decide; [intros [= <-]; done | apply Hinv].
Qed.

Lemma counts_nonneg_shrink (st st' : state) :
  (∀ k r, cached_models st' !! k = Some r → cached_models st !! k = Some r) →
  counts_nonneg st → counts_nonneg st'.
Proof. intros Hsub Hinv k r Hk. eapply Hinv, Hsub, Hk. Qed.

Lemma counts_nonneg_apply_op (T : Z) (op : cache_op) (st : state) :
  counts_nonneg st → counts_nonneg (apply_op T op st).
Proof.
  intros Hinv. destruct op as [now p m c | now p | now p | p | now p | now | f];
    simpl.
  - unfold register_model.
    destruct (cached_models st !! p) as [r |] eqn:Hr.
    + apply counts_nonneg_insert; [done |]. simpl. by eapply Hinv.
    + apply (counts_nonneg_insert st p (new_ModelResources now m c)); simpl;
        [done | lia].
  - unfold get_cached_model.
    destruct (cached_models st !! p) as [r |] eqn:Hr; simpl; [| done].
    apply (counts_nonneg_insert st p); [done |]. simpl.
    specialize (Hinv p r Hr). lia.
  - unfold mark_model_used.
    destruct (cached_models st !! p) as [r |] eqn:Hr; [| done].
    apply counts_nonneg_insert; [done |]. simpl. by eapply Hinv.
  - unfold increment_model_users.
    destruct (cached_models st !! p) as [r |] eqn:Hr; [| done].
    apply (counts_nonneg_insert st p); [done |]. simpl.
    specialize (Hinv p r Hr). lia.
  - unfold decrement_model_users.
    destruct (cached_models st !! p) as [r |] eqn:Hr; [| done].
    destruct (Z.ltb_spec 0 (active_users r)).
    + apply (counts_nonneg_insert st p); [done |]. simpl. lia.
    + apply counts_nonneg_insert; [done |]. simpl. by eapply Hinv.
  - apply (counts_nonneg_shrink st); [| done]. intros k r.
    rewrite sweep_lookup. destruct (cached_models st !! k); [| done].
    by case_decide.
  - apply (counts_nonneg_shrink st); [| done]. intros k r.
    rewrite clear_model_cache_lookup. destruct (cached_models st !! k); [| done].
    by case_decide.
Qed.

Lemma counts_nonneg_run_ops (T : Z) (ops : list cache_op) (st : state) :
  counts_nonneg st → counts_nonneg (run_ops T ops st).
Proof.
  revert st. induction ops as [| op ops IH]; intros st Hinv; [done |].
  unfold run_ops in *. simpl. by apply IH, counts_nonneg_apply_op.
Qed.

(** *** The release calls of a sweep and of a clear, exactly *)

Lemma release_handles_all_release (r : ModelResources) :
  filter (λ e, is_release_call e = true) (release_handles r) =
  release_handles r.
Proof.
  unfold release_handles.
  destruct (ctx r =? nullptr); destruct (model r =? nullptr); done.
Qed.

Lemma free_all_exact (l : list (string * ModelResources)) (st : state) :
  NoDup l.*1 →
  (∀ kv, kv ∈ l → cached_models st !! kv.1 = Some kv.2) →
  (∀ kv, kv ∈ l → active_users kv.2 ≤ 0) →
  ∃ more, effects (free_all l.*1 st) = effects st ++ more ∧
          filter (λ e, is_release_call e = true) more =
          flat_map (λ kv, release_handles kv.2) l.
Proof.
  revert st. induction l as [| [k r] l IH]; intros st Hnd Hin Hidle.
  - exists []. simpl. by rewrite app_nil_r.
  - simpl in Hnd. apply NoDup_cons in Hnd as [Hk Hnd].
    assert (Hr : cached_models st !! k = Some r)
      by apply (Hin (k, r)), list_elem_of_here.
    assert (Hau : active_users r ≤ 0)
      by apply (Hidle (k, r)), list_elem_of_here.
    destruct (IH (free_model_resources k st) Hnd) as (more & Heff & Hrel).
    + intros kv Hkv. rewrite free_model_resources_lookup.
      rewrite (Hin kv) by (by apply list_elem_of_further).
      rewrite decide_False; [done |]. intros [Heq _]. apply Hk.
      rewrite <- Heq. by apply list_elem_of_fmap_2.
    + intros kv Hkv. apply Hidle. by apply list_elem_of_further.
    + change (free_all ((k, r) :: l).*1 st)
        with (free_all l.*1 (free_model_resources k st)).
      rewrite Heff. unfold free_model_resources. rewrite Hr.
      destruct (Z.ltb_spec 0 (active_users r)); [lia |]. simpl.
      exists ((cout (Freeing k) :: release_handles r) ++ more).
      split; [by rewrite <- !app_assoc |].
      rewrite filter_app, filter_cons, decide_False by done.
      by rewrite release_handles_all_release, Hrel.
Qed.

Lemma scan_then_free (visit : list string * state → string * ModelResources →
                              list string * state)
    (selects : string * ModelResources → bool) (st : state) :
  (∀ acc kv, (visit acc kv).1 = if selects kv then acc.1 ++ [kv.1] else acc.1) →
  (∀ acc kv, cached_models (visit acc kv).2 = cached_models acc.2) →
  (∀ acc kv, ∃ logs, effects (visit acc kv).2 = effects acc.2 ++ logs ∧
                     filter (λ e, is_release_call e = true) logs = []) →
  (∀ kv, selects kv = true → active_users kv.2 ≤ 0) →
  ∃ more,
    effects (free_all (foldl visit ([], st) (map_to_list (cached_models st))).1
               (foldl visit ([], st) (map_to_list (cached_models st))).2) =
      effects st ++ more ∧
    filter (λ e, is_release_call e = true) more =
      flat_map (λ kv, release_handles kv.2)
        (filter (λ kv, selects kv = true) (map_to_list (cached_models st))).
Proof.
  intros Hsel Hmod Hlog Hidle.
  assert (Hscan : ∀ entries acc,
            (foldl visit acc entries).1 =
              acc.1 ++ (filter (λ kv, selects kv = true) entries).*1 ∧
            cached_models (foldl visit acc entries).2 = cached_models acc.2 ∧
            ∃ logs, effects (foldl visit acc entries).2 = effects acc.2 ++ logs ∧
                    filter (λ e, is_release_call e = true) logs = []).
  { induction entries as [| kv entries IH]; intros acc.
    - simpl. rewrite app_nil_r. split; [done |]. split; [done |].
      exists []. by rewrite app_nil_r.
    - simpl. destruct (IH (visit acc kv)) as (H1 & H2 & logs2 & H3 & H4).
      destruct (Hlog acc kv) as (logs1 & H5 & H6).
      split; [| split].
      + rewrite H1, Hsel, filter_cons.
        destruct (selects kv); simpl; [by rewrite <- app_assoc | done].
      + by rewrite H2, Hmod.
      + exists (logs1 ++ logs2). rewrite H3, H5, app_assoc.
        split; [done |]. by rewrite filter_app, H4, H6. }
  destruct (Hscan (map_to_list (cached_models st)) ([], st))
    as (Hlist & Hcache & logs & Hlogs & Hquiet).
  simpl in Hlist, Hcache, Hlogs. rewrite Hlist.
  destruct (free_all_exact
              (filter (λ kv, selects kv = true) (map_to_list (cached_models st)))
              (foldl visit ([], st) (map_to_list (cached_models st))).2)
    as (more & Heff & Hrel).
  - apply (sublist_NoDup _ (map_to_list (cached_models st)).*1);
      [apply NoDup_fst_map_to_list |].
    apply fmap_sublist, sublist_filter.
  - intros [k r] Hkv. apply list_elem_of_filter in Hkv as [_ Hkv].
    rewrite Hcache. by apply elem_of_map_to_list.
  - intros kv Hkv. apply list_elem_of_filter in Hkv as [Hs _]. by apply Hidle.
  - exists (logs ++ more). rewrite Heff, Hlogs, app_assoc. split; [done |].
    by rewrite filter_app, Hquiet, Hrel.
Qed.

Lemma sweep_effects_exact (T now : Z) (st : state) :
  ∃ more, effects (sweep T now st) = effects st ++ more ∧
          filter (λ e, is_release_call e = true) more =
          flat_map (λ kv, release_handles kv.2)
            (filter (λ kv, sweep_selects T now kv = true)
               (map_to_list (cached_models st))).
Proof.
  apply (scan_then_free (sweep_visit T now) (sweep_selects T now) st).
  - intros acc kv. unfold sweep_visit, sweep_selects.
    destruct (_ && _); [done |]. by destruct (T <=? _).
  - intros acc kv. unfold sweep_visit.
    destruct (_ && _); [done |]. by destruct (T <=? _).
  - intros acc kv. unfold sweep_visit.
    destruct (_ && _); [exists []; by rewrite app_nil_r |].
    destruct (T <=? _); simpl; [eauto |]. exists []. by rewrite app_nil_r.
  - intros kv Hs. unfold sweep_selects in Hs.
    apply andb_true_iff in Hs as [_ Hs]. lia.
Qed.

Lemma clear_effects_exact (st : state) :
  ∃ more, effects (clear_model_cache false st) = effects st ++ more ∧
          filter (λ e, is_release_call e = true) more =
          flat_map (λ kv, release_handles kv.2)
            (filter (λ kv, clear_selects false kv = true)
               (map_to_list (cached_models st))).
Proof.
  destruct (scan_then_free (clear_visit false) (clear_selects false) st)
    as (more & Heff & Hrel).
  - intros acc kv. unfold clear_visit, clear_selects. by destruct (_ || _).
  - intros acc kv. unfold clear_visit. by destruct (_ || _).
  - intros acc kv. unfold clear_visit.
    destruct (_ || _); simpl; [| eauto]. exists []. by rewrite app_nil_r.
  - intros kv Hs. unfold clear_selects in Hs. rewrite orb_false_r in Hs. lia.
  - unfold clear_model_cache. simpl. rewrite Heff.
    eexists. rewrite <- app_assoc. split; [done |].
    by rewrite filter_app, Hrel, app_nil_r.
Qed.

(** *** A scenario

    A model is registered and acquired; a sweep far past the threshold
    leaves it alone; once released, the next sweep frees it and releases
    both handles. *)
Example sweep_scenario :
  cached_models (sweep 60 100000000000 busy_cache) !! "m.gguf" =
    Some {| model := 1; ctx := 2; last_used := 0; active_users := 1 |} ∧
  cached_models
    (sweep 60 100000000000 (decrement_model_users 40000000000 "m.gguf"
                              busy_cache)) !! "m.gguf" = None ∧
  effects
    (sweep 60 100000000000 (decrement_model_users 40000000000 "m.gguf"
                              busy_cache)) =
    [cout (Registered "m.gguf"); cout (InUseBy "m.gguf" 1);
     cout (NowInUseBy "m.gguf" 0); cout (Freeing "m.gguf");
     llama_free 2; llama_model_free 1].
Proof. vm_compute. done. Qed.

(** *** The claims *)

(** C1, as the code has it.  The claim says that [clear_model_cache(true)]
    frees every entry whatever its use count.  On a table whose only entry
    has one active user, the forced clear selects the entry (the final log
    line counts it as cleared) but [free_model_resources] refuses it: the
    entry is still cached afterwards and neither [llama_free] nor
    [llama_model_free] has been called. *)
Theorem clear_model_cache_force_keeps_busy_entry :
  cached_models busy_cache !! "m.gguf" =
    Some {| model := 1; ctx := 2; last_used := 0; active_users := 1 |} ∧
  cached_models (clear_model_cache true busy_cache) !! "m.gguf" =
    Some {| model := 1; ctx := 2; last_used := 0; active_users := 1 |} ∧
  effects (clear_model_cache true busy_cache) =
    effects busy_cache ++ [cout (CannotFree "m.gguf" 1); cout (Cleared 1)].
Proof. vm_compute. done. Qed.

(** The part of C1 that the code does implement: an entry without active
    users is removed and its handles are released by either kind of clear,
    whatever its [last_used]. *)
Lemma clear_model_cache_frees_unused (force_clear : bool) (st : state)
    (path : string) (r : ModelResources) :
  cached_models st !! path = Some r → active_users r = 0 →
  cached_models (clear_model_cache force_clear st) !! path = None ∧
  ∀ e, e ∈ release_handles r → e ∈ effects (clear_model_cache force_clear st).
Proof.
  intros Hr H0. split.
  - rewrite clear_model_cache_lookup, Hr. by rewrite decide_True by by left.
  - intros e He. destruct (clear_scan force_clear st) as (Hmem & Hm & _).
    unfold clear_model_cache. simpl. apply elem_of_app. left.
    apply (free_all_releases _ _ path r); [| by rewrite Hm | lia | done].
    apply Hmem. exists r. by split; [| left].
Qed.

Lemma release_handles_elem (r : ModelResources) (e : effect) :
  e ∈ release_handles r ↔
  (e = llama_free (ctx r) ∧ ctx r ≠ nullptr) ∨
  (e = llama_model_free (model r) ∧ model r ≠ nullptr).
Proof.
  unfold release_handles. rewrite elem_of_app.
  destruct (Z.eqb_spec (ctx r) nullptr);
    destruct (Z.eqb_spec (model r) nullptr);
    rewrite ?elem_of_nil, ?list_elem_of_singleton; intuition congruence.
Qed.

Lemma released_by_selected (selects : string * ModelResources → bool)
    (st : state) (more : list effect) (e : effect) :
  filter (λ e, is_release_call e = true) more =
    flat_map (λ kv, release_handles kv.2)
      (filter (λ kv, selects kv = true) (map_to_list (cached_models st))) →
  e ∈ more → is_release_call e = true →
  ∃ k r, cached_models st !! k = Some r ∧ selects (k, r) = true ∧
         (e = llama_free (ctx r) ∨ e = llama_model_free (model r)).
Proof.
  intros Hrel He Hcall.
  assert (Hin : e ∈ filter (λ e, is_release_call e = true) more)
    by (by apply list_elem_of_filter).
  rewrite Hrel in Hin. apply list_elem_of_In, in_flat_map in Hin.
  destruct Hin as ([k r] & Hkv & Hin).
  apply list_elem_of_In, list_elem_of_filter in Hkv as [Hs Hkv].
  apply elem_of_map_to_list in Hkv.
  apply list_elem_of_In, release_handles_elem in Hin.
  exists k, r. split; [done |]. split; [done |].
  destruct Hin as [[-> _] | [-> _]]; [by left | by right].
Qed.

Lemma selected_is_released (selects : string * ModelResources → bool)
    (st : state) (more : list effect) (k : string) (r : ModelResources)
    (e : effect) :
  filter (λ e, is_release_call e = true) more =
    flat_map (λ kv, release_handles kv.2)
      (filter (λ kv, selects kv = true) (map_to_list (cached_models st))) →
  cached_models st !! k = Some r → selects (k, r) = true →
  e ∈ release_handles r → e ∈ more.
Proof.
  intros Hrel Hr Hs He.
  assert (Hin : e ∈ filter (λ e, is_release_call e = true) more).
  { rewrite Hrel. apply list_elem_of_In, in_flat_map. exists (k, r).
    split; [| by apply list_elem_of_In].
    apply list_elem_of_In, list_elem_of_filter.
    split; [done | by apply elem_of_map_to_list]. }
  by apply list_elem_of_filter in Hin as [_ Hin].
Qed.

(** C2.  A janitor sweep removes an entry exactly when its elapsed
    inactivity has reached the threshold and nobody uses it; the handles of
    a removed entry are released; an entry that stays is left as it was; an
    entry with active users survives the sweep and a non-forced clear, however
    long it has been inactive.  For a positive threshold, the whole seconds
    the code compares and the exact tick difference give the same test.

    What the sweep hands to llama.cpp is pinned down as well: up to order,
    the release calls it adds are one [llama_free] for each non-null context
    and one [llama_model_free] for each non-null model of the entries that
    are inactive long enough and unused, and nothing else; so a removed
    entry's pointers have been released, and every release is on a pointer
    of an entry that qualified, never on behalf of an entry in use.  The
    same holds for a non-forced clear, with the entries whose count is [0]. *)
Theorem sweep_frees_exactly_inactive_unused (T now : Z) (st : state)
    (path : string) (r : ModelResources) :
  cached_models st !! path = Some r →
  (cached_models (sweep T now st) !! path = None ↔
     T ≤ elapsed_seconds now (last_used r) ∧ active_users r = 0) ∧
  (cached_models (sweep T now st) !! path = None →
     ∀ e, e ∈ release_handles r → e ∈ effects (sweep T now st)) ∧
  (cached_models (sweep T now st) !! path ≠ None →
     cached_models (sweep T now st) !! path = Some r) ∧
  (0 < active_users r →
     cached_models (sweep T now st) !! path = Some r ∧
     cached_models (clear_model_cache false st) !! path = Some r) ∧
  (0 < T →
     (T ≤ elapsed_seconds now (last_used r) ↔
      T * ticks_per_second ≤ now - last_used r)) ∧
  (∃ more,
     effects (sweep T now st) = effects st ++ more ∧
     filter (λ e, is_release_call e = true) more ≡ₚ
       flat_map
         (λ kv, (if ctx kv.2 =? nullptr then [] else [llama_free (ctx kv.2)]) ++
                (if model kv.2 =? nullptr then []
                 else [llama_model_free (model kv.2)]))
         (filter (λ kv, T ≤ elapsed_seconds now (last_used kv.2) ∧
                        active_users kv.2 = 0)
            (map_to_list (cached_models st))) ∧
     (cached_models (sweep T now st) !! path = None →
        (ctx r ≠ nullptr → llama_free (ctx r) ∈ more) ∧
        (model r ≠ nullptr → llama_model_free (model r) ∈ more)) ∧
     (∀ e, e ∈ more → is_release_call e = true →
        ∃ k r', cached_models st !! k = Some r' ∧
                T ≤ elapsed_seconds now (last_used r') ∧
                active_users r' = 0 ∧
                (e = llama_free (ctx r') ∨ e = llama_model_free (model r')))) ∧
  (∃ more,
     effects (clear_model_cache false st) = effects st ++ more ∧
     filter (λ e, is_release_call e = true) more ≡ₚ
       flat_map
         (λ kv, (if ctx kv.2 =? nullptr then [] else [llama_free (ctx kv.2)]) ++
                (if model kv.2 =? nullptr then []
                 else [llama_model_free (model kv.2)]))
         (filter (λ kv, active_users kv.2 = 0)
            (map_to_list (cached_models st))) ∧
     (∀ e, e ∈ more → is_release_call e = true →
        ∃ k r', cached_models st !! k = Some r' ∧ active_users r' = 0 ∧
                (e = llama_free (ctx r') ∨ e = llama_model_free (model r')))).
Proof.
  intros Hr.
  assert (Hiff : cached_models (sweep T now st) !! path = None ↔
            T ≤ elapsed_seconds now (last_used r) ∧ active_users r = 0).
  { rewrite sweep_lookup, Hr. case_decide; [done |]. split; [done | tauto]. }
  split; [done |]. split; [| split; [| split; [| split; [| split]]]].
  - intros Hgone e He. apply Hiff in Hgone as [H1 H2].
    by apply (sweep_releases T now st path r).
  - rewrite sweep_lookup, Hr. by case_decide.
  - intros Hbusy. split.
    + rewrite sweep_lookup, Hr. rewrite decide_False; [done | lia].
    + rewrite clear_model_cache_lookup, Hr. rewrite decide_False; [done |].
      intros [? | [? _]]; [lia | done].
  - apply elapsed_seconds_threshold.
  - destruct (sweep_effects_exact T now st) as (more & Heff & Hrel).
    assert (Hsel : ∀ kv, sweep_selects T now kv = true ↔
                         T ≤ elapsed_seconds now (last_used kv.2) ∧
                         active_users kv.2 = 0).
    { intros kv. unfold sweep_selects. rewrite andb_true_iff. lia. }
    exists more. split; [done |]. split; [| split].
    + rewrite Hrel.
      by rewrite (list_filter_iff _ _ _ Hsel).
    + intros Hgone. apply Hiff in Hgone.
      split; intros Hnn;
        apply (selected_is_released (sweep_selects T now) st more path r);
        try done; try (by apply Hsel);
        apply release_handles_elem; [by left | by right].
    + intros e He Hcall.
      destruct (released_by_selected (sweep_selects T now) st more e
                  Hrel He Hcall) as (k & r' & Hr' & Hs & Hcase).
      apply Hsel in Hs as [H1 H2]. by exists k, r'.
  - destruct (clear_effects_exact st) as (more & Heff & Hrel).
    assert (Hsel : ∀ kv, clear_selects false kv = true ↔ active_users kv.2 = 0).
    { intros kv. unfold clear_selects. rewrite orb_false_r. lia. }
    exists more. split; [done |]. split.
    + rewrite Hrel.
      by rewrite (list_filter_iff _ _ _ Hsel).
    + intros e He Hcall.
      destruct (released_by_selected (clear_selects false) st more e
                  Hrel He Hcall) as (k & r' & Hr' & Hs & Hcase).
      apply Hsel in Hs. by exists k, r'.
Qed.

Lemma sweep_frees_exactly_inactive_unused_witness :
  cached_models idle_cache !! "m.gguf" =
    Some {| model := 1; ctx := 2; last_used := 0; active_users := 0 |} ∧
  cached_models (sweep 60 60000000000 idle_cache) !! "m.gguf" = None.
Proof.
  assert (H : cached_models idle_cache !! "m.gguf" =
    Some {| model := 1; ctx := 2; last_used := 0; active_users := 0 |})
    by (vm_compute; reflexivity).
  split; [exact H |].
  apply (proj1 (sweep_frees_exactly_inactive_unused
                  60 60000000000 idle_cache "m.gguf" _ H)).
  vm_compute. split; [discriminate | reflexivity].
Defined.

(** C3.  Starting from the empty table of a new queue, and more generally
    from any table whose counts are non-negative, no sequence of register,
    acquire, mark-used, increment, decrement, sweep and clear calls makes a
    use count negative; a decrement on a count of [0] leaves it at [0]. *)
Theorem active_users_never_negative (T : Z) (ops : list cache_op) :
  counts_nonneg (run_ops T ops init) ∧
  (∀ st, counts_nonneg st → counts_nonneg (run_ops T ops st)) ∧
  (∀ now path st r,
     cached_models st !! path = Some r → active_users r = 0 →
     ∃ r', cached_models (decrement_model_users now path st) !! path = Some r' ∧
           active_users r' = 0).
Proof.
  split; [| split].
  - apply counts_nonneg_run_ops. intros k r. simpl. by rewrite lookup_empty.
  - intros st. apply counts_nonneg_run_ops.
  - intros now path st r Hr H0. unfold decrement_model_users. rewrite Hr.
    destruct (Z.ltb_spec 0 (active_users r)); [lia |].
    exists (set_last_used now r). simpl. by rewrite lookup_insert_eq.
Qed.

Lemma active_users_never_negative_witness :
  counts_nonneg (run_ops 60 [Acquire 5 "m.gguf"; Sweep 70; Clear true] idle_cache) ∧
  ∃ r, cached_models
         (decrement_model_users 7 "m.gguf"
            (run_ops 60 [Decrement 5 "m.gguf"; Sweep 6] idle_cache))
         !! "m.gguf" = Some r ∧ active_users r = 0.
Proof.
  split.
  - apply (proj1 (proj2 (active_users_never_negative 60
                           [Acquire 5 "m.gguf"; Sweep 70; Clear true]))).
    exact (proj1 (active_users_never_negative 60
                    [Register 0 "m.gguf" 1 2; Acquire 0 "m.gguf";
                     Decrement 0 "m.gguf"])).
  - destruct (active_users_never_negative 60 [Decrement 5 "m.gguf"; Sweep 6])
      as (_ & _ & Hdec).
    apply (Hdec 7 "m.gguf" _
             {| model := 1; ctx := 2; last_used := 5; active_users := 0 |});
      vm_compute; reflexivity.
Defined.

(** C6.  Registering a path that is already cached changes nothing but the
    entry's [last_used]: the stored handles and the use count stay, the
    handles passed in are dropped, no other entry moves and nothing is
    logged or released.  Registering a new path inserts an entry with the
    given handles and a use count of [0].  So a second registration of the
    same path, with any handles, leaves every slot of the table as the first
    one made it, up to [last_used]. *)
Theorem register_model_idempotent (now now' : Z) (path : string)
    (m c m' c' : Z) (st : state) :
  (∀ r, cached_models st !! path = Some r →
     cached_models (register_model now path m c st) =
       <[path := {| model := model r; ctx := ctx r; last_used := now;
                    active_users := active_users r |}]> (cached_models st) ∧
     effects (register_model now path m c st) = effects st) ∧
  (cached_models st !! path = None →
     cached_models (register_model now path m c st) =
       <[path := {| model := m; ctx := c; last_used := now;
                    active_users := 0 |}]> (cached_models st)) ∧
  (∀ k, same_up_to_last_used
          (cached_models
             (register_model now' path m' c' (register_model now path m c st))
             !! k)
          (cached_models (register_model now path m c st) !! k)) ∧
  (∀ k, k ≠ path →
        cached_models
          (register_model now' path m' c' (register_model now path m c st))
          !! k = cached_models st !! k).
Proof.
  split; [| split; [| split]].
  - intros r Hr. unfold register_model. by rewrite Hr.
  - intros Hr. unfold register_model. by rewrite Hr.
  - intros k. unfold register_model.
    destruct (cached_models st !! path) as [r |] eqn:Hr; simpl;
      rewrite lookup_insert_eq; simpl; rewrite !lookup_insert;
      (case_decide; simpl; [done |]);
      by destruct (cached_models st !! k) as [[] |].
  - intros k Hne. unfold register_model.
    destruct (cached_models st !! path) as [r |] eqn:Hr; simpl;
      rewrite lookup_insert_eq; simpl; by rewrite !lookup_insert_ne.
Qed.

Lemma register_model_idempotent_witness :
  cached_models (register_model 9 "m.gguf" 3 4 busy_cache) =
    <["m.gguf" := {| model := 1; ctx := 2; last_used := 9;
                     active_users := 1 |}]> (cached_models busy_cache) ∧
  cached_models (register_model 9 "n.gguf" 3 4 busy_cache) =
    <["n.gguf" := {| model := 3; ctx := 4; last_used := 9;
                     active_users := 0 |}]> (cached_models busy_cache).
Proof.
  split.
  - apply (proj1 (register_model_idempotent 9 9 "m.gguf" 3 4 3 4 busy_cache)
             {| model := 1; ctx := 2; last_used := 0; active_users := 1 |}).
    vm_compute. reflexivity.
  - apply (proj1 (proj2
             (register_model_idempotent 9 9 "n.gguf" 3 4 3 4 busy_cache))).
    vm_compute. reflexivity.
Defined.

(** C7.  On a cached path [get_cached_model] returns the stored pair of
    handles and leaves the entry with [last_used] refreshed and the use count
    one higher, every other entry as it was; on a path that is not cached it
    returns the pair of null pointers and the state is untouched. *)
Theorem get_cached_model_spec (now : Z) (path : string) (st : state) :
  (∀ r, cached_models st !! path = Some r →
     (get_cached_model now path st).1 = (model r, ctx r) ∧
     cached_models (get_cached_model now path st).2 =
       <[path := {| model := model r; ctx := ctx r; last_used := now;
                    active_users := active_users r + 1 |}]>
         (cached_models st)) ∧
  (cached_models st !! path = None →
     (get_cached_model now path st).1 = (nullptr, nullptr) ∧
     (get_cached_model now path st).2 = st).
Proof.
  split.
  - intros r Hr. unfold get_cached_model. by rewrite Hr.
  - intros Hr. unfold get_cached_model. by rewrite Hr.
Qed.

Lemma get_cached_model_spec_witness :
  (get_cached_model 9 "m.gguf" busy_cache).1 = (1, 2) ∧
  (get_cached_model 9 "n.gguf" busy_cache).2 = busy_cache.
Proof.
  split.
  - apply (proj1 (get_cached_model_spec 9 "m.gguf" busy_cache)
             {| model := 1; ctx := 2; last_used := 0; active_users := 1 |}).
    vm_compute. reflexivity.
  - apply (proj2 (get_cached_model_spec 9 "n.gguf" busy_cache)).
    vm_compute. reflexivity.
Defined.

(** *** Further properties: how single operations move one slot *)

Lemma register_model_lookup (now : Z) (p : string) (m c : Z) (st : state)
    (k : string) :
  cached_models (register_model now p m c st) !! k =
  if decide (p = k) then
    Some (match cached_models st !! p with
          | Some r => set_last_used now r
          | None => new_ModelResources now m c
          end)
  else cached_models st !! k.
Proof.
  unfold register_model.
  destruct (cached_models st !! p) as [r |]; simpl; apply lookup_insert.
Qed.

Lemma get_cached_model_lookup (now : Z) (p : string) (st : state) (k : string) :
  cached_models (get_cached_model now p st).2 !! k =
  if decide (p = k) then
    (λ r, {| model := model r; ctx := ctx r; last_used := now;
             active_users := active_users r + 1 |}) <$> cached_models st !! p
  else cached_models st !! k.
Proof.
  unfold get_cached_model.
  destruct (cached_models st !! p) as [r |] eqn:Hr; simpl.
  - apply lookup_insert.
  - case_decide; [by subst |]; done.
Qed.

Lemma mark_model_used_lookup (now : Z) (p : string) (st : state) (k : string) :
  cached_models (mark_model_used now p st) !! k =
  if decide (p = k) then set_last_used now <$> cached_models st !! p
  else cached_models st !! k.
Proof.
  unfold mark_model_used.
  destruct (cached_models st !! p) as [r |] eqn:Hr; simpl.
  - apply lookup_insert.
  - case_decide; [by subst |]; done.
Qed.

Lemma increment_model_users_lookup (p : string) (st : state) (k : string) :
  cached_models (increment_model_users p st) !! k =
  if decide (p = k) then
    (λ r, set_active_users (active_users r + 1) r) <$> cached_models st !! p
  else cached_models st !! k.
Proof.
  unfold increment_model_users.
  destruct (cached_models st !! p) as [r |] eqn:Hr; simpl.
  - apply lookup_insert.
  - case_decide; [by subst |]; done.
Qed.

Lemma decrement_model_users_lookup (now : Z) (p : string) (st : state)
    (k : string) :
  cached_models (decrement_model_users now p st) !! k =
  if decide (p = k) then
    (λ r, {| model := model r; ctx := ctx r; last_used := now;
             active_users := if 0 <? active_users r
                             then active_users r - 1 else active_users r |})
      <$> cached_models st !! p
  else cached_models st !! k.
Proof.
  unfold decrement_model_users.
  destruct (cached_models st !! p) as [r |] eqn:Hr; simpl.
  - destruct (0 <? active_users r); simpl; apply lookup_insert.
  - case_decide; [by subst |]; done.
Qed.

(** One operation, seen from one slot: the slot is emptied, or keeps its
    handles, or is filled by a registration of that very path. *)
Lemma apply_op_slot (T : Z) (op : cache_op) (st : state) (path : string) :
  match cached_models (apply_op T op st) !! path with
  | None => True
  | Some r' =>
      match cached_models st !! path with
      | Some r => model r' = model r ∧ ctx r' = ctx r
      | None => ∃ now m c, op = Register now path m c
      end
  end.
Proof.
  destruct op as [now p m c | now p | now p | p | now p | now | f];
    cbn [apply_op].
  - rewrite register_model_lookup. case_decide as Hp.
    + subst p. destruct (cached_models st !! path); [done | eauto].
    + by destruct (cached_models st !! path).
  - rewrite get_cached_model_lookup. case_decide as Hp.
    + subst p. by destruct (cached_models st !! path).
    + by destruct (cached_models st !! path).
  - rewrite mark_model_used_lookup. case_decide as Hp.
    + subst p. by destruct (cached_models st !! path).
    + by destruct (cached_models st !! path).
  - rewrite increment_model_users_lookup. case_decide as Hp.
    + subst p. by destruct (cached_models st !! path).
    + by destruct (cached_models st !! path).
  - rewrite decrement_model_users_lookup. case_decide as Hp.
    + subst p. by destruct (cached_models st !! path).
    + by destruct (cached_models st !! path).
  - rewrite sweep_lookup. destruct (cached_models st !! path); [| done].
    by case_decide.
  - rewrite clear_model_cache_lookup.
    destruct (cached_models st !! path); [| done]. by case_decide.
Qed.

Lemma apply_op_keeps (T : Z) (op : cache_op) (st : state) (path : string) :
  keeps_entries op = true →
  is_Some (cached_models st !! path) →
  is_Some (cached_models (apply_op T op st) !! path).
Proof.
  intros Hop [r Hr].
  destruct op as [now p m c | now p | now p | p | now p | now | f];
    cbn [apply_op keeps_entries] in *; try discriminate.
  - rewrite register_model_lookup. case_decide; [done | by rewrite Hr].
  - rewrite get_cached_model_lookup.
    case_decide; [subst p |]; by rewrite Hr.
  - rewrite mark_model_used_lookup.
    case_decide; [subst p |]; by rewrite Hr.
  - rewrite increment_model_users_lookup.
    case_decide; [subst p |]; by rewrite Hr.
  - rewrite decrement_model_users_lookup.
    case_decide; [subst p |]; by rewrite Hr.
Qed.

(** X1.  No call sequence makes a path appear in the table unless the path
    was there before or the sequence registers it: lookups, use-count
    updates, sweeps and clears never create an entry. *)
Theorem entries_created_only_by_register (T : Z) (ops : list cache_op)
    (st : state) (path : string) :
  is_Some (cached_models (run_ops T ops st) !! path) →
  is_Some (cached_models st !! path) ∨
  ∃ now m c, Register now path m c ∈ ops.
Proof.
  revert st. induction ops as [| op ops IH]; intros st Hin; [by left |].
  unfold run_ops in *. simpl in Hin.
  destruct (IH _ Hin) as [Hmid | (now & m & c & Hlater)].
  - pose proof (apply_op_slot T op st path) as Hslot.
    destruct Hmid as [r' Hr']. rewrite Hr' in Hslot.
    destruct (cached_models st !! path) as [r |]; [by left |].
    destruct Hslot as (now & m & c & ->). right. exists now, m, c.
    apply list_elem_of_here.
  - right. exists now, m, c. by apply list_elem_of_further.
Qed.

Lemma entries_created_only_by_register_witness :
  is_Some (cached_models idle_cache !! "m.gguf") ∨
  ∃ now m c, Register now "m.gguf" m c
               ∈ [Acquire 3 "m.gguf"; Increment "n.gguf"; Sweep 4].
Proof.
  apply (entries_created_only_by_register 60
           [Acquire 3 "m.gguf"; Increment "n.gguf"; Sweep 4] idle_cache
           "m.gguf").
  vm_compute. eauto.
Defined.

(** X2.  The handles of a cached entry are never replaced: whatever single
    operation is applied, a path that is cached before and after it has the
    same model and context pointers; and over any sequence of operations
    other than sweeps and clears the entry stays cached with those
    pointers. *)
Theorem handles_are_never_replaced (T : Z) (st : state) (path : string)
    (r : ModelResources) :
  cached_models st !! path = Some r →
  (∀ op r', cached_models (apply_op T op st) !! path = Some r' →
            model r' = model r ∧ ctx r' = ctx r) ∧
  (∀ ops, forallb keeps_entries ops = true →
          ∃ r', cached_models (run_ops T ops st) !! path = Some r' ∧
                model r' = model r ∧ ctx r' = ctx r).
Proof.
  intros Hr. split.
  - intros op r' Hr'. pose proof (apply_op_slot T op st path) as Hslot.
    by rewrite Hr', Hr in Hslot.
  - intros ops. revert st r Hr.
    induction ops as [| op ops IH]; intros st r Hr Hops; [by exists r |].
    simpl in Hops. apply andb_true_iff in Hops as [Hop Hops].
    destruct (apply_op_keeps T op st path Hop) as [r1 Hr1]; [by exists r |].
    pose proof (apply_op_slot T op st path) as Hslot.
    rewrite Hr1, Hr in Hslot. destruct Hslot as [Hm Hc].
    destruct (IH _ _ Hr1 Hops) as (r' & Hr' & Hm' & Hc').
    exists r'. unfold run_ops in *. simpl. split; [done |]. split; congruence.
Qed.

Lemma handles_are_never_replaced_witness :
  ∃ r', cached_models
          (run_ops 60 [Register 5 "m.gguf" 8 9; Decrement 6 "m.gguf";
                       MarkUsed 7 "m.gguf"] busy_cache) !! "m.gguf" = Some r' ∧
        model r' = 1 ∧ ctx r' = 2.
Proof.
  apply (proj2 (handles_are_never_replaced 60 busy_cache "m.gguf"
                  {| model := 1; ctx := 2; last_used := 0; active_users := 1 |}
                  ltac:(vm_compute; reflexivity))
           [Register 5 "m.gguf" 8 9; Decrement 6 "m.gguf"; MarkUsed 7 "m.gguf"]).
  reflexivity.
Defined.

(** *** Further properties: the use count *)

Lemma run_ops_app (T : Z) (ops1 ops2 : list cache_op) (st : state) :
  run_ops T (ops1 ++ ops2) st = run_ops T ops2 (run_ops T ops1 st).
Proof. apply foldl_app. Qed.

Lemma acquires_count (T : Z) (times : list Z) (path : string) (st : state)
    (r : ModelResources) :
  cached_models st !! path = Some r →
  ∃ r', cached_models
          (run_ops T (map (λ t, Acquire t path) times) st) !! path = Some r' ∧
        active_users r' = active_users r + Z.of_nat (length times) ∧
        model r' = model r ∧ ctx r' = ctx r.
Proof.
  revert st r. induction times as [| t times IH]; intros st r Hr.
  - exists r. simpl. split; [done |]. split; [lia | done].
  - unfold run_ops in *. cbn [map foldl apply_op].
    destruct (IH (get_cached_model t path st).2
                {| model := model r; ctx := ctx r; last_used := t;
                   active_users := active_users r + 1 |})
      as (r' & Hr' & Hau & Hm & Hc).
    { rewrite get_cached_model_lookup, decide_True by done. by rewrite Hr. }
    exists r'. split; [done |]. simpl in *. split; [lia | done].
Qed.

Lemma releases_count (T : Z) (times : list Z) (path : string) (st : state)
    (r : ModelResources) :
  cached_models st !! path = Some r → 0 ≤ active_users r →
  ∃ r', cached_models
          (run_ops T (map (λ t, Decrement t path) times) st) !! path = Some r' ∧
        active_users r' = Z.max 0 (active_users r - Z.of_nat (length times)) ∧
        model r' = model r ∧ ctx r' = ctx r.
Proof.
  revert st r. induction times as [| t times IH]; intros st r Hr Hau.
  - exists r. simpl. split; [done |]. split; [lia | done].
  - unfold run_ops in *. cbn [map foldl apply_op].
    destruct (IH (decrement_model_users t path st)
                {| model := model r; ctx := ctx r; last_used := t;
                   active_users := if 0 <? active_users r
                                   then active_users r - 1
                                   else active_users r |})
      as (r' & Hr' & Hau' & Hm & Hc).
    { rewrite decrement_model_users_lookup, decide_True by done.
      by rewrite Hr. }
    { simpl. destruct (Z.ltb_spec 0 (active_users r)); lia. }
    exists r'. split; [done |]. simpl in *.
    split; [| done]. destruct (Z.ltb_spec 0 (active_users r)); lia.
Qed.

(** X3.  The use count is a saturating counter.  On a cached entry with a
    non-negative count [c], [a] calls of [get_cached_model] followed by [d]
    calls of [decrement_model_users] leave the count at [max 0 (c + a - d)]
    and the handles as they were: balanced calls restore the count, and
    surplus releases stop at zero. *)
Theorem use_count_saturates (T : Z) (acquires releases : list Z)
    (path : string) (st : state) (r : ModelResources) :
  cached_models st !! path = Some r → 0 ≤ active_users r →
  ∃ r', cached_models
          (run_ops T (map (λ t, Acquire t path) acquires ++
                      map (λ t, Decrement t path) releases) st) !! path
          = Some r' ∧
        active_users r' =
          Z.max 0 (active_users r + Z.of_nat (length acquires)
                   - Z.of_nat (length releases)) ∧
        model r' = model r ∧ ctx r' = ctx r.
Proof.
  intros Hr Hau. rewrite run_ops_app.
  destruct (acquires_count T acquires path st r Hr) as (r1 & Hr1 & Hau1 & Hm1 & Hc1).
  destruct (releases_count T releases path _ r1 Hr1 ltac:(lia))
    as (r' & Hr' & Hau' & Hm' & Hc').
  exists r'. split; [done |]. split; [| split; congruence]. lia.
Qed.

Lemma use_count_saturates_witness :
  ∃ r', cached_models
          (run_ops 60 (map (λ t, Acquire t "m.gguf") [1; 2] ++
                       map (λ t, Decrement t "m.gguf") [3; 4; 5; 6; 7])
             busy_cache) !! "m.gguf" = Some r' ∧
        active_users r' = Z.max 0 (1 + Z.of_nat 2 - Z.of_nat 5) ∧
        model r' = 1 ∧ ctx r' = 2.
Proof.
  apply (use_count_saturates 60 [1; 2] [3; 4; 5; 6; 7] "m.gguf" busy_cache
           {| model := 1; ctx := 2; last_used := 0; active_users := 1 |});
    vm_compute; [reflexivity | discriminate].
Defined.

(** *** Further properties: recency *)

(** X4.  Every call that touches a cached path ([register_model],
    [get_cached_model], [mark_model_used], [decrement_model_users]) restarts
    its inactivity period: a sweep whose clock reading is less than the
    threshold (in whole seconds) past the time of that call keeps the entry,
    however old it was before and whatever its use count. *)
Theorem touched_entry_survives_sweep (T t now : Z) (op : cache_op)
    (st : state) (path : string) :
  touches t path op = true →
  is_Some (cached_models st !! path) →
  elapsed_seconds now t < T →
  is_Some (cached_models (sweep T now (apply_op T op st)) !! path).
Proof.
  intros Hop [r Hr] Hrecent. rewrite sweep_lookup.
  destruct op as [t' p m c | t' p | t' p | p | t' p | t' | f];
    cbn [touches] in Hop; try discriminate;
    apply bool_decide_eq_true in Hop as [-> ->]; cbn [apply_op].
  - rewrite register_model_lookup, decide_True, Hr by done. simpl.
    rewrite decide_False; [done | lia].
  - rewrite get_cached_model_lookup, decide_True, Hr by done. simpl.
    rewrite decide_False; [done | lia].
  - rewrite mark_model_used_lookup, decide_True, Hr by done. simpl.
    rewrite decide_False; [done | lia].
  - rewrite decrement_model_users_lookup, decide_True, Hr by done. simpl.
    rewrite decide_False; [done | lia].
Qed.

Lemma touched_entry_survives_sweep_witness :
  is_Some (cached_models
             (sweep 60 159999999999
                (apply_op 60 (Decrement 100000000000 "m.gguf") idle_cache))
             !! "m.gguf").
Proof.
  apply (touched_entry_survives_sweep 60 100000000000 159999999999
           (Decrement 100000000000 "m.gguf") idle_cache "m.gguf").
  - reflexivity.
  - vm_compute. eauto.
  - vm_compute. reflexivity.
Defined.

Lemma elapsed_seconds_mono (now1 now2 last : Z) :
  now1 ≤ now2 → elapsed_seconds now1 last ≤ elapsed_seconds now2 last.
Proof.
  intros H. unfold elapsed_seconds, ticks_per_second.
  apply Z.quot_le_mono; lia.
Qed.

Lemma cleanup_inactive_models_gone (T : Z) (wakes : list Z) (st : state)
    (path : string) :
  cached_models st !! path = None →
  cached_models (cleanup_inactive_models T wakes st) !! path = None.
Proof.
  revert st. induction wakes as [| now wakes IH]; intros st Hnone; [done |].
  unfold cleanup_inactive_models in *. simpl. apply IH.
  by rewrite sweep_lookup, Hnone.
Qed.

(** X5.  The janitor loop, left alone with the table: after the sweeps made
    at the clock readings [wakes], an entry is gone exactly when it has no
    active user and at one of the readings its inactivity had reached the
    threshold; otherwise it is still there, unchanged. *)
Theorem janitor_loop_frees (T : Z) (wakes : list Z) (st : state)
    (path : string) (r : ModelResources) :
  cached_models st !! path = Some r →
  cached_models (cleanup_inactive_models T wakes st) !! path =
  if decide (active_users r = 0 ∧
             Exists (λ now, T ≤ elapsed_seconds now (last_used r)) wakes)
  then None else Some r.
Proof.
  revert st. induction wakes as [| now wakes IH]; intros st Hr.
  - simpl. rewrite decide_False; [done |]. intros [_ H]. by inversion H.
  - unfold cleanup_inactive_models in *. simpl.
    destruct (decide (T ≤ elapsed_seconds now (last_used r) ∧
                      active_users r = 0)) as [[Hold Hidle] | Hkeep].
    + rewrite decide_True by (split; [done | by apply Exists_cons_hd]).
      apply (cleanup_inactive_models_gone T wakes).
      rewrite sweep_lookup, Hr. by rewrite decide_True.
    + rewrite IH by (rewrite sweep_lookup, Hr; by rewrite decide_False).
      apply decide_ext. split.
      * intros [H0 Hex]. split; [done | by apply Exists_cons_tl].
      * intros [H0 Hex]. split; [done |].
        apply Exists_cons in Hex as [Hhd | Htl]; [tauto | done].
Qed.

Lemma janitor_loop_frees_witness :
  cached_models
    (cleanup_inactive_models 60 [5000000000; 65000000000] idle_cache)
    !! "m.gguf" = None.
Proof.
  rewrite (janitor_loop_frees 60 [5000000000; 65000000000] idle_cache "m.gguf"
             {| model := 1; ctx := 2; last_used := 0; active_users := 0 |});
    vm_compute; reflexivity.
Defined.

(** X6.  With a clock that does not run backwards, a sweep makes every
    earlier sweep redundant: sweeping at [now1] and then at [now2 >= now1]
    leaves the same table as sweeping at [now2] alone. *)
Theorem later_sweep_subsumes_earlier (T now1 now2 : Z) (st : state) :
  now1 ≤ now2 →
  cached_models (sweep T now2 (sweep T now1 st)) =
  cached_models (sweep T now2 st).
Proof.
  intros Hle. apply map_eq. intros k. rewrite !sweep_lookup.
  destruct (cached_models st !! k) as [r |]; [| done].
  destruct (decide (T ≤ elapsed_seconds now1 (last_used r) ∧
                    active_users r = 0)) as [[Hold Hidle] | Hkeep]; [| done].
  rewrite decide_True; [done |]. split; [| done].
  pose proof (elapsed_seconds_mono now1 now2 (last_used r) Hle). lia.
Qed.

Lemma later_sweep_subsumes_earlier_witness :
  cached_models (sweep 60 70000000000 (sweep 60 30000000000 idle_cache)) =
  cached_models (sweep 60 70000000000 idle_cache).
Proof.
  apply (later_sweep_subsumes_earlier 60 30000000000 70000000000 idle_cache).
  vm_compute. discriminate.
Defined.

(** *** Further properties: clearing the cache *)

(** X7.  On a table whose counts are non-negative, [clear_model_cache]
    leaves exactly the entries that have active users, each as it was, and
    this whatever the value of [force_clear]; clearing again, with either
    flag, removes nothing more. *)
Theorem clear_leaves_busy_entries (force_clear again : bool) (st : state) :
  counts_nonneg st →
  cached_models (clear_model_cache force_clear st) =
    filter (λ kv, 0 < active_users kv.2) (cached_models st) ∧
  cached_models (clear_model_cache again (clear_model_cache force_clear st)) =
    cached_models (clear_model_cache force_clear st).
Proof.
  intros Hinv.
  assert (Hone : ∀ f s, counts_nonneg s →
            cached_models (clear_model_cache f s) =
            filter (λ kv, 0 < active_users kv.2) (cached_models s)).
  { intros f s Hs. apply map_eq. intros k.
    rewrite clear_model_cache_lookup, map_lookup_filter.
    destruct (cached_models s !! k) as [r |] eqn:Hr; simpl; [| done].
    specialize (Hs k r Hr).
    destruct (decide (0 < active_users r)) as [Hbusy | Hidle].
    - rewrite decide_False by (intros [? | [_ ?]]; lia).
      by rewrite option_guard_True.
    - rewrite decide_True by (left; lia). by rewrite option_guard_False. }
  split; [by apply Hone |].
  rewrite (Hone again) by (by apply (counts_nonneg_apply_op 0 (Clear _))).
  rewrite (Hone force_clear) by done.
  apply map_eq. intros k. rewrite !map_lookup_filter.
  destruct (cached_models st !! k) as [r |]; simpl; [| done].
  destruct (decide (0 < active_users r)).
  - rewrite option_guard_True by done. simpl. by rewrite option_guard_True.
  - by rewrite option_guard_False.
Qed.

Lemma counts_nonneg_init : counts_nonneg init.
Proof. intros k r. simpl. by rewrite lookup_empty. Qed.

Lemma counts_nonneg_busy_cache : counts_nonneg busy_cache.
Proof.
  exact (counts_nonneg_run_ops 0
           [Register 0 "m.gguf" 1 2; Acquire 0 "m.gguf"] init
           counts_nonneg_init).
Qed.

Lemma clear_leaves_busy_entries_witness :
  cached_models (clear_model_cache true busy_cache) =
    filter (λ kv, 0 < active_users kv.2) (cached_models busy_cache) ∧
  cached_models (clear_model_cache false (clear_model_cache true busy_cache)) =
    cached_models (clear_model_cache true busy_cache).
Proof.
  apply (clear_leaves_busy_entries true false busy_cache).
  exact counts_nonneg_busy_cache.
Defined.

Lemma clear_scan_list (force_clear : bool)
    (entries : list (string * ModelResources)) (acc : list string * state) :
  (foldl (clear_visit force_clear) acc entries).1 =
  acc.1 ++ (filter (λ kv, clear_selects force_clear kv = true) entries).*1.
Proof.
  revert acc. induction entries as [| kv entries IH]; intros acc.
  - simpl. by rewrite app_nil_r.
  - simpl. rewrite IH, filter_cons. unfold clear_visit, clear_selects.
    destruct (_ || _); simpl.
    + by rewrite <- app_assoc.
    + done.
Qed.

Lemma forced_clear_selects_all (l : list (string * ModelResources)) :
  filter (λ kv, clear_selects true kv = true) l = l.
Proof.
  induction l as [| kv l IH]; [done |].
  rewrite filter_cons, decide_True.
  - by rewrite IH.
  - unfold clear_selects. by rewrite orb_true_r.
Qed.

(** X8.  The last thing [clear_model_cache] does is to report a count on
    [std::cout], and the count is the number of entries it selected, not the
    number it freed: a non-forced clear reports the entries without active
    users, and a forced clear always reports the size of the whole table,
    also when entries in use have been kept. *)
Theorem clear_reports_selected_entries (force_clear : bool) (st : state) :
  (∃ earlier,
     effects (clear_model_cache force_clear st) =
     earlier ++
     [cout (Cleared
              (length (filter (λ kv, clear_selects force_clear kv = true)
                         (map_to_list (cached_models st)))))]) ∧
  (∃ earlier,
     effects (clear_model_cache true st) =
     earlier ++ [cout (Cleared (size (cached_models st)))]).
Proof.
  assert (Hany : ∀ f, ∃ earlier,
            effects (clear_model_cache f st) =
            earlier ++
            [cout (Cleared
                     (length (filter (λ kv, clear_selects f kv = true)
                                (map_to_list (cached_models st)))))]).
  { intros f. unfold clear_model_cache. simpl.
    rewrite clear_scan_list. simpl. rewrite length_fmap. eauto. }
  split; [apply Hany |].
  destruct (Hany true) as [earlier He]. exists earlier. rewrite He.
  by rewrite forced_clear_selects_all, length_map_to_list.
Qed.

(** *** Further properties: what is handed to llama.cpp *)

Lemma extends_refl (st : state) : extends_without_null st st.
Proof. exists []. by rewrite app_nil_r. Qed.

Lemma extends_same_effects (st st' : state) :
  effects st' = effects st → extends_without_null st st'.
Proof. intros H. exists []. by rewrite app_nil_r. Qed.

Lemma extends_trans (st1 st2 st3 : state) :
  extends_without_null st1 st2 → extends_without_null st2 st3 →
  extends_without_null st1 st3.
Proof.
  intros (m1 & H1 & F1) (m2 & H2 & F2). exists (m1 ++ m2).
  split; [by rewrite H2, H1, app_assoc | by apply Forall_app].
Qed.

Lemma extends_emit_cout (l : log_line) (st st' : state) :
  effects st' = effects st ++ [cout l] → extends_without_null st st'.
Proof. intros H. exists [cout l]. split; [done | by repeat constructor]. Qed.

Lemma release_handles_no_null (r : ModelResources) :
  Forall (λ e, frees_null e = false) (release_handles r).
Proof.
  unfold release_handles. apply Forall_app. split.
  - destruct (Z.eqb_spec (ctx r) nullptr) as [| Hc]; [done |].
    repeat constructor. simpl. by apply Z.eqb_neq.
  - destruct (Z.eqb_spec (model r) nullptr) as [| Hm]; [done |].
    repeat constructor. simpl. by apply Z.eqb_neq.
Qed.

Lemma extends_free_model_resources (p : string) (st : state) :
  extends_without_null st (free_model_resources p st).
Proof.
  unfold free_model_resources.
  destruct (cached_models st !! p) as [r |]; [| apply extends_refl].
  destruct (0 <? active_users r).
  - by eapply extends_emit_cout.
  - eexists. split; [done |]. constructor; [done |].
    apply release_handles_no_null.
Qed.

Lemma extends_free_all (l : list string) (st : state) :
  extends_without_null st (free_all l st).
Proof.
  revert st. induction l as [| p l IH]; intros st; [apply extends_refl |].
  unfold free_all in *. simpl.
  eapply extends_trans; [apply extends_free_model_resources | apply IH].
Qed.

Lemma extends_scan (visit : list string * state → string * ModelResources →
                            list string * state)
    (entries : list (string * ModelResources)) (acc : list string * state) :
  (∀ a kv, extends_without_null a.2 (visit a kv).2) →
  extends_without_null acc.2 (foldl visit acc entries).2.
Proof.
  intros Hvisit. revert acc.
  induction entries as [| kv entries IH]; intros acc; [apply extends_refl |].
  simpl. eapply extends_trans; [apply Hvisit | apply IH].
Qed.

Lemma extends_apply_op (T : Z) (op : cache_op) (st : state) :
  extends_without_null st (apply_op T op st).
Proof.
  destruct op as [now p m c | now p | now p | p | now p | now | f];
    cbn [apply_op].
  - unfold register_model. destruct (cached_models st !! p);
      [by apply extends_same_effects | by eapply extends_emit_cout].
  - unfold get_cached_model. destruct (cached_models st !! p);
      [by eapply extends_emit_cout | by apply extends_same_effects].
  - unfold mark_model_used. destruct (cached_models st !! p);
      by apply extends_same_effects.
  - unfold increment_model_users. destruct (cached_models st !! p);
      [by eapply extends_emit_cout | by apply extends_same_effects].
  - unfold decrement_model_users.
    destruct (cached_models st !! p); [| by apply extends_same_effects].
    destruct (0 <? _); [by eapply extends_emit_cout | by apply extends_same_effects].
  - unfold sweep. eapply extends_trans; [| apply extends_free_all].
    apply (extends_scan (sweep_visit T now) _ ([], st)).
    intros a kv. unfold sweep_visit.
    destruct (_ && _); [by apply extends_same_effects |].
    destruct (T <=? _); [by eapply extends_emit_cout | by apply extends_same_effects].
  - unfold clear_model_cache. eapply extends_trans;
      [| by eapply extends_emit_cout].
    eapply extends_trans; [| apply extends_free_all].
    apply (extends_scan (clear_visit f) _ ([], st)).
    intros a kv. unfold clear_visit.
    destruct (_ || _); [by apply extends_same_effects | by eapply extends_emit_cout].
Qed.

Lemma extends_run_ops (T : Z) (ops : list cache_op) (st : state) :
  extends_without_null st (run_ops T ops st).
Proof.
  revert st. induction ops as [| op ops IH]; intros st; [apply extends_refl |].
  unfold run_ops in *. simpl.
  eapply extends_trans; [apply extends_apply_op | apply IH].
Qed.

Lemma extends_free_remaining (st : state) :
  extends_without_null st (free_remaining st).
Proof.
  eexists. split; [done |].
  induction (map_to_list (cached_models st)) as [| kv l IH]; [done |].
  simpl. apply Forall_app. split; [apply release_handles_no_null | done].
Qed.

(** X9.  The cache never hands a null pointer to [llama_free] or
    [llama_model_free]: if no such call has been made so far, none is made by
    any sequence of cache operations, nor by the destructor's final release
    of whatever the table still holds. *)
Theorem null_handles_are_never_released (T : Z) (ops : list cache_op)
    (st : state) :
  Forall (λ e, frees_null e = false) (effects st) →
  Forall (λ e, frees_null e = false) (effects (run_ops T ops st)) ∧
  Forall (λ e, frees_null e = false)
    (effects (free_remaining (run_ops T ops st))).
Proof.
  intros Hst.
  destruct (extends_run_ops T ops st) as (m1 & H1 & F1).
  destruct (extends_free_remaining (run_ops T ops st)) as (m2 & H2 & F2).
  rewrite H2, H1. split; [| apply Forall_app; split; [| done]];
    by apply Forall_app.
Qed.

Lemma null_handles_are_never_released_witness :
  Forall (λ e, frees_null e = false)
    (effects
       (free_remaining
          (run_ops 60 [Register 1 "n.gguf" 0 5; Sweep 90000000000] init))).
Proof.
  apply (null_handles_are_never_released 60
           [Register 1 "n.gguf" 0 5; Sweep 90000000000] init).
  constructor.
Defined.

(** X10.  The destructor's final loop, unlike [free_model_resources], does
    not look at the use count: whatever table it finds, it leaves it empty,
    and every non-null context and model pointer of every entry, in use or
    not, has been passed to [llama_free] and [llama_model_free]. *)
Theorem destructor_releases_everything (st : state) (path : string)
    (r : ModelResources) :
  cached_models st !! path = Some r →
  cached_models (free_remaining st) = ∅ ∧
  (ctx r ≠ nullptr → llama_free (ctx r) ∈ effects (free_remaining st)) ∧
  (model r ≠ nullptr →
   llama_model_free (model r) ∈ effects (free_remaining st)).
Proof.
  intros Hr. destruct (free_remaining_releases st path r Hr) as [Hempty Hrel].
  split; [done |]. split; intros Hnn; apply Hrel; unfold release_handles.
  - apply elem_of_app. left.
    destruct (Z.eqb_spec (ctx r) nullptr); [done | apply list_elem_of_here].
  - apply elem_of_app. right.
    destruct (Z.eqb_spec (model r) nullptr); [done | apply list_elem_of_here].
Qed.

Lemma destructor_releases_everything_witness :
  cached_models (free_remaining busy_cache) = ∅ ∧
  llama_free 2 ∈ effects (free_remaining busy_cache) ∧
  llama_model_free 1 ∈ effects (free_remaining busy_cache).
Proof.
  destruct (destructor_releases_everything busy_cache "m.gguf"
              {| model := 1; ctx := 2; last_used := 0; active_users := 1 |})
    as (H1 & H2 & H3); [vm_compute; reflexivity |].
  split; [exact H1 |]. split; [apply H2 | apply H3]; discriminate.
Defined.

(** *** Further properties: pinning *)

Lemma apply_op_pinned (T : Z) (op : cache_op) (st : state) (path : string)
    (r : ModelResources) :
  cached_models st !! path = Some r →
  0 < active_users r - Z.of_nat (releases path [op]) →
  ∃ r', cached_models (apply_op T op st) !! path = Some r' ∧
        active_users r - Z.of_nat (releases path [op]) ≤ active_users r'.
Proof.
  intros Hr Hpin.
  destruct op as [now p m c | now p | now p | p | now p | now | f];
    cbn [apply_op].
  - change (releases path [_]) with 0%nat in *.
    rewrite register_model_lookup. case_decide as Hp.
    + subst p. rewrite Hr. eexists. split; [done |]. simpl. lia.
    + exists r. split; [done | lia].
  - change (releases path [_]) with 0%nat in *.
    rewrite get_cached_model_lookup. case_decide as Hp.
    + subst p. rewrite Hr. eexists. split; [done |]. simpl. lia.
    + exists r. split; [done | lia].
  - change (releases path [_]) with 0%nat in *.
    rewrite mark_model_used_lookup. case_decide as Hp.
    + subst p. rewrite Hr. eexists. split; [done |]. simpl. lia.
    + exists r. split; [done | lia].
  - change (releases path [_]) with 0%nat in *.
    rewrite increment_model_users_lookup. case_decide as Hp.
    + subst p. rewrite Hr. eexists. split; [done |]. simpl. lia.
    + exists r. split; [done | lia].
  - rewrite decrement_model_users_lookup. unfold releases in *.
    rewrite filter_cons in Hpin |- *. cbn [is_release] in Hpin |- *.
    destruct (decide (p = path)) as [-> | Hp].
    + rewrite Hr.
      rewrite (decide_True (P := bool_decide (path = path) = true))
        in Hpin |- * by (by apply bool_decide_eq_true).
      eexists. split; [done |]. simpl in *.
      destruct (Z.ltb_spec 0 (active_users r)); lia.
    + rewrite (decide_False (P := bool_decide (p = path) = true))
        in Hpin |- * by (rewrite bool_decide_eq_true; congruence).
      exists r. split; [done | simpl; lia].
  - change (releases path [_]) with 0%nat in *.
    rewrite sweep_lookup, Hr. rewrite decide_False by lia.
    exists r. split; [done | lia].
  - change (releases path [_]) with 0%nat in *.
    rewrite clear_model_cache_lookup, Hr. rewrite decide_False by lia.
    exists r. split; [done | lia].
Qed.

(** X24.  An entry in use is pinned.  As long as the calls of
    [decrement_model_users] for a path are fewer than its use count, no
    sequence of operations removes the entry: sweeps at any time and clears,
    forced or not, leave it cached, with a count that is at least the
    original one minus the releases. *)
Theorem entry_in_use_is_pinned (T : Z) (ops : list cache_op) (st : state)
    (path : string) (r : ModelResources) :
  cached_models st !! path = Some r →
  Z.of_nat (releases path ops) < active_users r →
  ∃ r', cached_models (run_ops T ops st) !! path = Some r' ∧
        active_users r - Z.of_nat (releases path ops) ≤ active_users r' ∧
        model r' = model r ∧ ctx r' = ctx r.
Proof.
  revert st r. induction ops as [| op ops IH]; intros st r Hr Hpin.
  - exists r. unfold releases in *. simpl in *. split; [done |].
    split; [lia | done].
  - assert (Hsplit : releases path (op :: ops) =
                     (releases path [op] + releases path ops)%nat).
    { unfold releases. change (op :: ops) with ([op] ++ ops).
      by rewrite filter_app, length_app. }
    rewrite Hsplit in Hpin |- *.
    destruct (apply_op_pinned T op st path r Hr ltac:(lia))
      as (r1 & Hr1 & Hau1).
    pose proof (apply_op_slot T op st path) as Hslot.
    rewrite Hr1, Hr in Hslot. destruct Hslot as [Hm1 Hc1].
    destruct (IH _ r1 Hr1 ltac:(lia)) as (r' & Hr' & Hau' & Hm' & Hc').
    exists r'. unfold run_ops in *. simpl. split; [done |].
    split; [lia | split; congruence].
Qed.

Lemma entry_in_use_is_pinned_witness :
  ∃ r', cached_models
          (run_ops 60 [Sweep 900000000000; Clear true; Decrement 6 "m.gguf";
                       Clear false; Sweep 990000000000]
             (get_cached_model 1 "m.gguf" busy_cache).2) !! "m.gguf"
          = Some r' ∧
        2 - Z.of_nat 1 ≤ active_users r' ∧ model r' = 1 ∧ ctx r' = 2.
Proof.
  apply (entry_in_use_is_pinned 60
           [Sweep 900000000000; Clear true; Decrement 6 "m.gguf";
            Clear false; Sweep 990000000000]
           (get_cached_model 1 "m.gguf" busy_cache).2 "m.gguf"
           {| model := 1; ctx := 2; last_used := 1; active_users := 2 |}).
  - vm_compute. reflexivity.
  - vm_compute. reflexivity.
Defined.

End ModelCacheProofs.

(** ** Properties of the task queue and the worker *)

Module TaskQueueProofs.
Import TaskQueue.

Section Facts.

Context {World fllama_inference_request fllama_inference_callback : Type}.
Variable request_id_of : fllama_inference_request → Z.
Variable fllama_inference_sync :
  fllama_inference_request → fllama_inference_callback →
  World → outcome * World.

Local Abbreviation TaskWrapper := (@TaskWrapper World).
Local Abbreviation worker_event := (@worker_event World).
Local Abbreviation machine := (@machine World).
Local Abbreviation action :=
  (@action fllama_inference_request fllama_inference_callback).
Local Abbreviation make_task := (make_task request_id_of fllama_inference_sync).
Local Abbreviation step := (step request_id_of fllama_inference_sync).
Local Abbreviation run := (run request_id_of fllama_inference_sync).
Local Abbreviation enqueued := (enqueued request_id_of fllama_inference_sync).

(** *** Bookkeeping of tasks *)

Lemma handled_record (e : worker_event) (m : machine) :
  handled (record e m) = handled m ++ from_option (λ t, [t]) [] (disposed_of e).
Proof.
  unfold handled, record. simpl. rewrite omap_app. simpl.
  by destruct (disposed_of e).
Qed.

Lemma invoked_record (e : worker_event) (m : machine) :
  invoked (record e m) = invoked m ++ from_option (λ t, [t]) [] (called e).
Proof.
  unfold invoked, record. simpl. rewrite omap_app. simpl.
  by destruct (called e).
Qed.

Lemma invoked_set_pc (p : worker_pc) (m : machine) :
  invoked (set_pc p m) = invoked m.
Proof. done. Qed.

Lemma invoked_set_world (w : World) (m : machine) :
  invoked (set_world w m) = invoked m.
Proof. done. Qed.

Lemma invoked_set_tasks (ts : list TaskWrapper) (m : machine) :
  invoked (set_tasks ts m) = invoked m.
Proof. done. Qed.

Lemma invoked_sublist_handled (m : machine) : sublist (invoked m) (handled m).
Proof.
  unfold invoked, handled. induction (trace m) as [| e tr IH]; simpl; [done |].
  destruct e; simpl; try done.
  - by apply sublist_cons.
  - by apply sublist_skip.
Qed.

Lemma all_tasks_step (a : action) (m : machine) :
  all_tasks (step a m) = all_tasks m ++ enqueued [a].
Proof.
  destruct m as [ts fs d p w tr].
  destruct a as [request callback | id | | | |];
    unfold all_tasks, handled, held; simpl; rewrite ?app_nil_r; try done.
  - by rewrite !app_assoc.
  - unfold worker_dequeue. simpl.
    destruct p as [| t |]; simpl; try done.
    destruct ts as [| front rest]; simpl; [by destruct d |].
    rewrite omap_app. simpl. by rewrite app_nil_r.
  - unfold worker_execute. simpl.
    destruct p as [| t |]; simpl; try done.
    destruct (flag_set (request_id t) _); simpl.
    + rewrite omap_app. simpl. by rewrite <- app_assoc.
    + destruct (task t w) as [res w']. simpl.
      destruct res; simpl; rewrite !omap_app; simpl;
        rewrite ?app_nil_r; by rewrite <- app_assoc.
Qed.

Lemma enqueued_app (s1 s2 : list action) :
  enqueued (s1 ++ s2) = enqueued s1 ++ enqueued s2.
Proof. apply omap_app. Qed.

Lemma all_tasks_run (schedule : list action) (m : machine) :
  all_tasks (run schedule m) = all_tasks m ++ enqueued schedule.
Proof.
  revert m. induction schedule as [| a schedule IH]; intros m.
  - simpl. by rewrite app_nil_r.
  - unfold run in *. simpl. rewrite IH, all_tasks_step.
    rewrite <- app_assoc. f_equal. unfold enqueued. simpl. by destruct a.
Qed.

(** *** Schedules without cancellation *)

Lemma no_flag_set_flag_set (m : machine) (id : Z) :
  no_flag_set m → flag_set id m = false.
Proof.
  intros H. unfold flag_set. specialize (H id).
  destruct (cancel_flags m !! id) as [[] |]; done.
Qed.

Lemma no_cancel_step (a : action) (m : machine) :
  is_cancel a = false →
  no_flag_set m ∧ invoked m = handled m →
  no_flag_set (step a m) ∧ invoked (step a m) = handled (step a m).
Proof.
  intros Ha [Hflags Heq].
  destruct a as [request callback | id | | | |]; simpl.
  - done.
  - done.
  - split; [| done]. intros id. simpl. by rewrite lookup_empty.
  - done.
  - unfold worker_dequeue. destruct (pc m) as [| t |]; try done.
    destruct (tasks m) as [| front rest]; [by destruct (done m) |].
    split; [done |]. rewrite invoked_record, handled_record. simpl.
    by rewrite !app_nil_r.
  - unfold worker_execute. destruct (pc m) as [| t |]; try done.
    rewrite no_flag_set_flag_set by done.
    destruct (task t (world m)) as [res w']. unfold invoked, handled in *.
    destruct res; simpl; (split; [done |]); rewrite !omap_app; simpl;
      by rewrite Heq.
Qed.

Lemma no_cancel_run (schedule : list action) (m : machine) :
  Forall (λ a, is_cancel a = false) schedule →
  no_flag_set m ∧ invoked m = handled m →
  no_flag_set (run schedule m) ∧
  invoked (run schedule m) = handled (run schedule m).
Proof.
  revert m. induction schedule as [| a schedule IH]; intros m Hs Hm; [done |].
  apply Forall_cons in Hs as [Ha Hs]. unfold run in *. simpl.
  by apply IH, no_cancel_step.
Qed.

(** *** The worker left alone with a queue *)

Lemma worker_dequeue_pops (m : machine) (t : TaskWrapper)
    (ts : list TaskWrapper) :
  pc m = Waiting → tasks m = t :: ts →
  worker_dequeue m =
    record (CoutProcessing (request_id t)) (set_pc (Holding t) (set_tasks ts m)).
Proof. intros Hpc Hts. unfold worker_dequeue. by rewrite Hpc, Hts. Qed.

Lemma worker_execute_calls (m : machine) (t : TaskWrapper) :
  pc m = Holding t → flag_set (request_id t) m = false →
  worker_execute m =
    set_pc Waiting
      (record NotifyCleanup
         (log_failure (task t (world m)).1
            (record (Invoked t) (set_world (task t (world m)).2 m)))).
Proof. intros Hpc Hf. unfold worker_execute. by rewrite Hpc, Hf. Qed.

Lemma worker_execute_discards (m : machine) (t : TaskWrapper) :
  pc m = Holding t → flag_set (request_id t) m = true →
  worker_execute m =
    set_pc Waiting
      (record (Discarded t)
         (set_cancel_flags (delete (request_id t) (cancel_flags m)) m)).
Proof. intros Hpc Hf. unfold worker_execute. by rewrite Hpc, Hf. Qed.

Lemma process_inference_turn (fuel : nat) (m : machine) (t : TaskWrapper)
    (ts : list TaskWrapper) :
  pc m = Waiting → tasks m = t :: ts →
  process_inference (S fuel) m =
    process_inference fuel (worker_execute (worker_dequeue m)).
Proof.
  intros Hpc Hts. simpl. by rewrite (worker_dequeue_pops m t ts).
Qed.

Lemma log_failure_fields (res : outcome) (m : machine) :
  tasks (log_failure res m) = tasks m ∧
  cancel_flags (log_failure res m) = cancel_flags m ∧
  done (log_failure res m) = done m ∧
  pc (log_failure res m) = pc m ∧
  world (log_failure res m) = world m ∧
  invoked (log_failure res m) = invoked m.
Proof.
  destruct res; simpl; repeat split; try done;
    rewrite invoked_record; simpl; by rewrite app_nil_r.
Qed.

Lemma process_inference_drains (extra : nat) (ts : list TaskWrapper)
    (m : machine) :
  pc m = Waiting → tasks m = ts → done m = false → no_flag_set m →
  let m' := process_inference (length ts + extra) m in
  invoked m' = invoked m ++ ts ∧ tasks m' = [] ∧ pc m' = Waiting.
Proof.
  revert m. induction ts as [| t ts IH]; intros m Hpc Hts Hdone Hflags.
  - simpl. rewrite app_nil_r. destruct extra as [| extra]; simpl; [done |].
    unfold worker_dequeue. rewrite Hpc, Hts, Hdone. by rewrite Hpc.
  - cbn zeta. replace (length (t :: ts) + extra)%nat
      with (S (length ts + extra)) by done.
    rewrite (process_inference_turn _ m t ts) by done.
    rewrite (worker_dequeue_pops m t ts) by done.
    rewrite (worker_execute_calls _ t)
      by (done || by apply no_flag_set_flag_set).
    match goal with |- context [process_inference _ ?x] => set (m2 := x) end.
    destruct (log_failure_fields (task t (world m)).1
                (record (Invoked t)
                   (set_world (task t (world m)).2
                      (record (CoutProcessing (request_id t))
                         (set_pc (Holding t) (set_tasks ts m))))))
      as (Ht & Hf & Hd & _ & _ & Hi).
    destruct (IH m2) as (Hinv & Htasks & Hpc').
    + done.
    + subst m2. simpl. by rewrite Ht.
    + subst m2. simpl. by rewrite Hd.
    + subst m2. intros id. simpl. rewrite Hf. apply Hflags.
    + split; [| done]. rewrite Hinv. subst m2.
      rewrite invoked_set_pc, invoked_record. simpl. rewrite app_nil_r, Hi.
      rewrite invoked_record, invoked_set_world, invoked_record. simpl.
      rewrite app_nil_r, invoked_set_pc, invoked_set_tasks.
      by rewrite <- app_assoc.
Qed.

Lemma run_enqueues (requests : list (fllama_inference_request *
                                     fllama_inference_callback))
    (m : machine) :
  let fill := map (λ rc, Enqueue rc.1 rc.2) requests in
  run fill m = set_tasks (tasks m ++ enqueued fill) m.
Proof.
  revert m. induction requests as [| [r cb] requests IH]; intros m; simpl.
  - rewrite app_nil_r. by destruct m.
  - simpl in IH. unfold run in *. simpl. rewrite IH. unfold enqueue. simpl.
    by rewrite <- app_assoc.
Qed.

(** *** Other threads between the two halves of a turn *)

Lemma bystanders_keep (others : list action) (m : machine) :
  Forall (λ a, bystander_call a = true) others →
  pc (run others m) = pc m ∧
  world (run others m) = world m ∧
  trace (run others m) = trace m ∧
  ∀ id, cancel_flags m !! id = Some true →
        cancel_flags (run others m) !! id = Some true.
Proof.
  revert m. induction others as [| a others IH]; intros m Hp; [done |].
  apply Forall_cons in Hp as [Ha Hp]. unfold TaskQueue.run in *. simpl.
  destruct (IH (step a m) Hp) as (Hpc & Hw & Ht & Hf).
  rewrite Hpc, Hw, Ht.
  destruct a as [request callback | id' | | | |]; simpl in *;
    try discriminate Ha.
  - repeat split. intros id Hid. by apply Hf.
  - repeat split. intros id Hid. apply Hf. simpl.
    rewrite lookup_insert. by case_decide.
  - repeat split. intros id Hid. by apply Hf.
Qed.

(** *** The claims *)

(** C4, amended.  Take the worker at its wait with task [t] at the front of
    the queue and the flag of [t]'s request id set.  The worker pops [t];
    then, whatever other threads do before the worker reaches its check,
    short of the destructor emptying the flag table ([enqueue] and [cancel]
    calls with any arguments, the destructor's [done = true]), the second
    half of the turn discards [t]: the only events added are the processing
    line and the discard, no body is called, the world is as it was, the flag
    of that id is gone from the table and the worker is back at its wait. *)
Theorem cancelled_task_is_discarded (m : machine) (t : TaskWrapper)
    (rest : list TaskWrapper) (others : list action) :
  pc m = Waiting → tasks m = t :: rest →
  cancel_flags m !! request_id t = Some true →
  Forall (λ a, bystander_call a = true) others →
  let m1 := worker_dequeue m in
  let m2 := worker_execute (run others m1) in
  pc m1 = Holding t ∧
  trace m2 = trace m ++ [CoutProcessing (request_id t); Discarded t] ∧
  invoked m2 = invoked m ∧
  world m2 = world m ∧
  cancel_flags m2 !! request_id t = None ∧
  pc m2 = Waiting.
Proof.
  intros Hpc Hts Hflag Hothers. cbn zeta.
  rewrite (worker_dequeue_pops m t rest) by done.
  set (m1 := record _ _).
  destruct (bystanders_keep others m1 Hothers) as (Hpc1 & Hw1 & Ht1 & Hf1).
  assert (Hset : flag_set (request_id t) (run others m1) = true).
  { unfold flag_set. by rewrite (Hf1 (request_id t)). }
  rewrite (worker_execute_discards _ t) by done.
  unfold invoked. simpl. rewrite Ht1, Hw1. simpl.
  rewrite lookup_delete_eq, <- app_assoc, !omap_app. simpl.
  by rewrite !app_nil_r.
Qed.

(** C5.  After any interleaving of calls and worker steps on a new queue,
    the tasks the worker has finished with, the one it holds and the ones
    still queued are, in this order, exactly the tasks enqueued so far in
    the order of the [enqueue] calls; the tasks whose body was called are a
    subsequence of the finished ones, and all of them when no [cancel] was
    issued.  In particular, when a sequence of requests is enqueued and the
    worker is given at least as many turns, the bodies called are those of
    the requests, one per request and in the order of the calls, and the
    queue is empty. *)
Theorem tasks_execute_in_fifo_order (w : World) (schedule : list action)
    (requests : list (fllama_inference_request * fllama_inference_callback))
    (extra : nat) :
  let m := run schedule (init w) in
  handled m ++ held m ++ tasks m = enqueued schedule ∧
  sublist (invoked m) (handled m) ∧
  (Forall (λ a, is_cancel a = false) schedule → invoked m = handled m) ∧
  let fill := map (λ rc, Enqueue rc.1 rc.2) requests in
  let m' := process_inference (length requests + extra) (run fill (init w)) in
  invoked m' = map (λ rc, make_task rc.1 rc.2) requests ∧
  tasks m' = [] ∧ pc m' = Waiting.
Proof.
  cbn zeta. split; [| split; [| split]].
  - apply (all_tasks_run schedule (init w)).
  - apply invoked_sublist_handled.
  - intros Hs. apply no_cancel_run; [done |]. split; [| done].
    intros id. simpl. by rewrite lookup_empty.
  - pose proof (run_enqueues requests (init w)) as Hfill. cbn zeta in Hfill.
    rewrite Hfill. simpl.
    assert (Henq : enqueued (map (λ rc, Enqueue rc.1 rc.2) requests) =
                   map (λ rc, make_task rc.1 rc.2) requests).
    { unfold enqueued. clear. induction requests as [| rc rs IH]; [done |].
      simpl. f_equal. exact IH. }
    rewrite Henq.
    pose proof (process_inference_drains extra
                  (map (λ rc, make_task rc.1 rc.2) requests)
                  (set_tasks (map (λ rc, make_task rc.1 rc.2) requests)
                     (init w))) as Hd.
    rewrite length_map in Hd.
    apply Hd; try done; intros id; simpl; by rewrite lookup_empty.
Qed.

(** C8.  Take the worker at its wait with task [t] at the front of the
    queue, not cancelled, and let the body of [t] throw.  After the turn the
    worker is at its wait again, not exited; the queue is the old one without
    [t]; the flag table and [done] are untouched; the events added are the
    processing line, the call, one line on [std::cerr] and the notification
    of the janitor; and the loop goes on with the rest of the queue: its next
    turn pops the task that followed [t]. *)
Theorem task_failure_is_contained (m : machine) (t : TaskWrapper)
    (rest : list TaskWrapper) (res : outcome) (w' : World) (fuel : nat) :
  pc m = Waiting → tasks m = t :: rest →
  flag_set (request_id t) m = false →
  task t (world m) = (res, w') → res ≠ Returned →
  let m1 := worker_execute (worker_dequeue m) in
  pc m1 = Waiting ∧
  tasks m1 = rest ∧
  cancel_flags m1 = cancel_flags m ∧
  done m1 = done m ∧
  world m1 = w' ∧
  trace m1 =
    trace m ++ [CoutProcessing (request_id t); Invoked t;
                match res with
                | ThrewStdException what => CerrException what
                | _ => CerrUnknownException
                end;
                NotifyCleanup] ∧
  process_inference (S fuel) m = process_inference fuel m1 ∧
  ∀ next rest', rest = next :: rest' → pc (worker_dequeue m1) = Holding next.
Proof.
  intros Hpc Hts Hflag Hrun Hres. cbn zeta.
  rewrite <- (process_inference_turn fuel m t rest) by done.
  rewrite (worker_dequeue_pops m t rest) by done.
  rewrite (worker_execute_calls _ t) by done.
  simpl. rewrite Hrun. simpl.
  destruct res as [| what |]; [done | |]; simpl;
    rewrite <- !app_assoc; simpl; repeat split;
    intros next rest' ->; by unfold worker_dequeue.
Qed.

(** *** Further properties: cancellation flags *)

Lemma flag_step (a : action) (m : machine) (id : Z) :
  is_clear_flags a = false →
  cancel_flags m !! id = Some true →
  Forall (λ t, request_id t ≠ id) (held m ++ tasks m ++ enqueued [a]) →
  cancel_flags (step a m) !! id = Some true ∧
  Forall (λ t, request_id t ≠ id) (held (step a m) ++ tasks (step a m)).
Proof.
  intros Ha Hflag Hids.
  destruct a as [request callback | id' | | | |]; cbn [step] in *;
    try discriminate.
  - split; [done |]. unfold held in *. simpl in *. exact Hids.
  - rewrite app_nil_r in Hids. split; [| done]. simpl.
    rewrite lookup_insert. by case_decide.
  - rewrite app_nil_r in Hids. by split.
  - rewrite app_nil_r in Hids. unfold worker_dequeue.
    destruct (pc m) as [| t |] eqn:Hpc; [| done | done].
    unfold held in *. rewrite Hpc in Hids.
    destruct (tasks m) as [| front rest] eqn:Hts.
    + destruct (done m); simpl; rewrite ?Hpc, ?Hts; by split.
    + split; [done |]. simpl in *. exact Hids.
  - rewrite app_nil_r in Hids. unfold worker_execute.
    destruct (pc m) as [| t |] eqn:Hpc; [done | | done].
    unfold held in Hids. rewrite Hpc in Hids. simpl in Hids.
    apply Forall_cons in Hids as [Ht Hids].
    destruct (flag_set (request_id t) m); simpl.
    + split; [| done]. by rewrite lookup_delete_ne.
    + destruct (task t (world m)) as [[] w']; simpl; by split.
Qed.

(** X11.  A cancellation flag is consumed only by a task with its request
    id.  After [cancel(id)], and as long as the destructor has not cleared
    the table, [is_cancelled(id)] stays true through any interleaving of
    calls and worker steps in which no task with that id is held, queued or
    enqueued: flags of ids that never reach the worker are kept for good. *)
Theorem flag_persists_until_consumed (schedule : list action) (m : machine)
    (id : Z) :
  forallb (λ a, negb (is_clear_flags a)) schedule = true →
  Forall (λ t, request_id t ≠ id) (held m ++ tasks m ++ enqueued schedule) →
  is_cancelled id (run schedule (cancel id m)) = true.
Proof.
  intros Hclear Hids.
  assert (Hgen : ∀ s m0,
            forallb (λ a, negb (is_clear_flags a)) s = true →
            cancel_flags m0 !! id = Some true →
            Forall (λ t, request_id t ≠ id)
              (held m0 ++ tasks m0 ++ enqueued s) →
            cancel_flags (run s m0) !! id = Some true).
  { clear. induction s as [| a s IH]; intros m0 Hc Hf Hids; [done |].
    simpl in Hc. apply andb_true_iff in Hc as [Ha Hc].
    apply negb_true_iff in Ha.
    change (a :: s) with ([a] ++ s) in Hids.
    rewrite enqueued_app, !app_assoc in Hids.
    apply Forall_app in Hids as [Hnow Hlater].
    rewrite <- !app_assoc in Hnow.
    destruct (flag_step a m0 id Ha Hf Hnow) as [Hf' Hids'].
    unfold TaskQueue.run in *. simpl. apply IH; [done | done |].
    rewrite app_assoc. by apply Forall_app. }
  unfold is_cancelled, flag_set.
  rewrite (Hgen schedule (cancel id m)); [done | done | | done].
  simpl. by rewrite lookup_insert_eq.
Qed.

Lemma flags_only_from_cancel (schedule : list action) (m : machine) (id : Z) :
  cancel_flags (run schedule m) !! id = Some true →
  cancel_flags m !! id = Some true ∨ Cancel id ∈ schedule.
Proof.
  revert m. induction schedule as [| a s IH]; intros m Hset; [by left |].
  unfold TaskQueue.run in *. simpl in Hset.
  destruct (IH _ Hset) as [Hmid | Hlater];
    [| right; by apply list_elem_of_further].
  destruct a as [request callback | id' | | | |]; cbn [step] in Hmid.
  - by left.
  - simpl in Hmid. rewrite lookup_insert in Hmid.
    case_decide; [subst id'; right; apply list_elem_of_here | by left].
  - simpl in Hmid. by rewrite lookup_empty in Hmid.
  - by left.
  - left. unfold worker_dequeue in Hmid.
    destruct (pc m); [| done | done].
    destruct (tasks m); [by destruct (done m) | done].
  - left. unfold worker_execute in Hmid.
    destruct (pc m) as [| t |]; [done | | done].
    destruct (flag_set (request_id t) m); simpl in Hmid.
    + rewrite lookup_delete in Hmid. by case_decide.
    + by destruct (task t (world m)) as [[] w'].
Qed.

(** X12.  Flags come from [cancel] alone: on a queue that started empty,
    [is_cancelled(id)] is true only if [cancel(id)] was called; no other call
    and no step of the worker sets a flag. *)
Theorem only_cancelled_ids_are_flagged (w : World) (schedule : list action)
    (id : Z) :
  is_cancelled id (run schedule (init w)) = true → Cancel id ∈ schedule.
Proof.
  intros Hset. unfold is_cancelled, flag_set in Hset.
  destruct (cancel_flags (run schedule (init w)) !! id) as [[] |] eqn:Hid;
    try discriminate.
  destruct (flags_only_from_cancel schedule (init w) id Hid) as [H | H];
    [| done].
  simpl in H. by rewrite lookup_empty in H.
Qed.

(** X13.  One cancellation discards one task.  When the two tasks at the
    front of the queue carry the same request id and its flag is set, the
    worker discards the first, which erases the flag, and then calls the
    body of the second. *)
Theorem one_cancel_discards_one_task (m : machine) (t1 t2 : TaskWrapper)
    (rest : list TaskWrapper) :
  pc m = Waiting → tasks m = t1 :: t2 :: rest →
  request_id t2 = request_id t1 →
  flag_set (request_id t1) m = true →
  let m' := process_inference 2 m in
  handled m' = handled m ++ [t1; t2] ∧
  invoked m' = invoked m ++ [t2] ∧
  flag_set (request_id t1) m' = false ∧
  tasks m' = rest.
Proof.
  intros Hpc Hts Hid Hflag. cbn zeta.
  rewrite (process_inference_turn 1 m t1 (t2 :: rest)) by done.
  rewrite (worker_dequeue_pops m t1 (t2 :: rest)) by done.
  rewrite (worker_execute_discards _ t1) by done.
  set (m1 := set_pc Waiting _).
  assert (Hf1 : flag_set (request_id t2) m1 = false).
  { unfold flag_set. subst m1. simpl. by rewrite Hid, lookup_delete_eq. }
  rewrite (process_inference_turn 0 m1 t2 rest) by done.
  rewrite (worker_dequeue_pops m1 t2 rest) by done.
  rewrite (worker_execute_calls _ t2) by done.
  cbn [process_inference].
  unfold handled, invoked, flag_set. simpl.
  destruct (task t2 (world m)) as [[] w']; simpl;
    rewrite <- ?app_assoc, !omap_app; simpl;
    rewrite ?app_nil_r, <- ?app_assoc, lookup_delete_eq; done.
Qed.

(** *** Further properties: shutdown *)

Lemma process_inference_drains_then_exits (extra : nat)
    (ts : list TaskWrapper) (m : machine) :
  pc m = Waiting → tasks m = ts → done m = true → no_flag_set m →
  let m' := process_inference (S (length ts) + extra) m in
  invoked m' = invoked m ++ ts ∧ handled m' = handled m ++ ts ∧
  tasks m' = [] ∧ pc m' = Exited.
Proof.
  revert m. induction ts as [| t ts IH]; intros m Hpc Hts Hdone Hflags.
  - simpl. rewrite !app_nil_r. unfold worker_dequeue.
    rewrite Hpc, Hts, Hdone. simpl. done.
  - cbn zeta. replace (S (length (t :: ts)) + extra)%nat
      with (S (S (length ts) + extra)) by done.
    rewrite (process_inference_turn _ m t ts) by done.
    rewrite (worker_dequeue_pops m t ts) by done.
    rewrite (worker_execute_calls _ t)
      by (done || by apply no_flag_set_flag_set).
    match goal with |- context [process_inference _ ?x] => set (m2 := x) end.
    destruct (IH m2) as (Hinv & Hhan & Htasks & Hpc').
    + done.
    + subst m2. simpl. by destruct (task t (world m)).1.
    + subst m2. simpl. by destruct (task t (world m)).1.
    + subst m2. intros id. simpl.
      destruct (task t (world m)).1; simpl; apply Hflags.
    + split; [| split; [| done]].
      * rewrite Hinv. subst m2. unfold invoked. simpl.
        destruct (task t (world m)).1; simpl; rewrite !omap_app; simpl;
          rewrite ?app_nil_r; by rewrite <- app_assoc.
      * rewrite Hhan. subst m2. unfold handled. simpl.
        destruct (task t (world m)).1; simpl; rewrite !omap_app; simpl;
          rewrite ?app_nil_r; by rewrite <- app_assoc.
Qed.

(** X14.  Destruction drains the queue.  Once the destructor has cleared
    the flag table and set [done], the worker, given enough turns, calls the
    body of every task that is still queued, in order, those whose request
    had been cancelled included, and only then leaves its loop. *)
Theorem destructor_drains_queue (m : machine) (ts : list TaskWrapper)
    (extra : nat) :
  pc m = Waiting → tasks m = ts →
  let m' :=
    process_inference (S (length ts) + extra) (signal_done (clear_flags m)) in
  invoked m' = invoked m ++ ts ∧ handled m' = handled m ++ ts ∧
  tasks m' = [] ∧ pc m' = Exited.
Proof.
  intros Hpc Hts.
  apply (process_inference_drains_then_exits extra ts
           (signal_done (clear_flags m)));
    try done; intros id; simpl; by rewrite lookup_empty.
Qed.

Lemma exited_step (a : action) (m : machine) :
  pc m = Exited →
  pc (step a m) = Exited ∧ trace (step a m) = trace m ∧
  world (step a m) = world m.
Proof.
  intros Hpc. destruct a as [request callback | id | | | |]; cbn [step];
    try done.
  - unfold worker_dequeue. by rewrite Hpc.
  - unfold worker_execute. by rewrite Hpc.
Qed.

(** X15.  A worker that has left its loop stays out of it: whatever is
    enqueued, cancelled or attempted afterwards, no body is called, nothing
    is logged and the world does not change. *)
Theorem exited_worker_runs_nothing (schedule : list action) (m : machine) :
  pc m = Exited →
  pc (run schedule m) = Exited ∧ trace (run schedule m) = trace m ∧
  world (run schedule m) = world m.
Proof.
  revert m. induction schedule as [| a s IH]; intros m Hpc; [done |].
  unfold TaskQueue.run in *. simpl.
  destruct (exited_step a m Hpc) as (Hpc' & Ht & Hw).
  destruct (IH _ Hpc') as (H1 & H2 & H3). by rewrite H1, H2, H3.
Qed.

Lemma exit_step (a : action) (m : machine) :
  (pc (step a m) = Exited → pc m = Exited ∨ (done m = true ∧ tasks m = [])) ∧
  (done (step a m) = true → done m = true ∨ a = SignalDone).
Proof.
  destruct a as [request callback | id | | | |]; cbn [step].
  - split; intros H; by left.
  - split; intros H; by left.
  - split; intros H; by left.
  - split; intros H; [by left | by right].
  - unfold worker_dequeue. destruct (pc m) eqn:Hpc.
    + destruct (tasks m) eqn:Hts.
      * destruct (done m) eqn:Hd.
        -- split; intros H; [by right | by left].
        -- split; intros H; congruence.
      * split; intros H; [discriminate H | by left].
    + split; intros H; [congruence | by left].
    + split; intros H; by left.
  - unfold worker_execute. destruct (pc m) as [| t |] eqn:Hpc.
    + split; intros H; [congruence | by left].
    + destruct (flag_set (request_id t) m).
      * split; intros H; [discriminate H | by left].
      * destruct (task t (world m)) as [[] w'];
          (split; intros H; [discriminate H | by left]).
    + split; intros H; by left.
Qed.

Lemma done_only_from_destructor (schedule : list action) (m : machine) :
  done (run schedule m) = true → done m = true ∨ SignalDone ∈ schedule.
Proof.
  revert m. induction schedule as [| a s IH]; intros m Hd; [by left |].
  unfold TaskQueue.run in *. simpl in Hd.
  destruct (IH _ Hd) as [Hmid | Hlater];
    [| right; by apply list_elem_of_further].
  destruct (proj2 (exit_step a m) Hmid) as [? | ->]; [by left |].
  right. apply list_elem_of_here.
Qed.

(** X16.  The worker leaves its loop only at shutdown.  On a queue that
    started empty, if the worker has exited after some interleaving of calls
    and steps, then the destructor's [done = true] is part of that
    interleaving; without it the worker never exits, however often it finds
    the queue empty. *)
Theorem worker_exits_only_after_done (w : World) (schedule : list action) :
  pc (run schedule (init w)) = Exited → SignalDone ∈ schedule.
Proof.
  assert (Hgen : ∀ s m, pc (run s m) = Exited →
            pc m = Exited ∨ SignalDone ∈ s ∨ done m = true).
  { induction s as [| a s IH] using rev_ind; intros m Hex; [by left |].
    unfold TaskQueue.run in *. rewrite foldl_app in Hex. simpl in Hex.
    destruct (proj1 (exit_step a _) Hex) as [Hbefore | [Hd _]].
    - destruct (IH m Hbefore) as [? | [? | ?]]; [by left | | by right; right].
      right; left. apply elem_of_app. by left.
    - destruct (done_only_from_destructor s m Hd) as [? | ?];
        [by right; right |].
      right; left. apply elem_of_app. by left. }
  intros Hex. destruct (Hgen schedule (init w) Hex) as [H | [H | H]]; done.
Qed.

(** *** Further properties: what the worker leaves behind *)

Lemma filter_app_length {A} (P : A → Prop) `{∀ x, Decision (P x)}
    (l1 l2 : list A) :
  length (filter P (l1 ++ l2)) =
  (length (filter P l1) + length (filter P l2))%nat.
Proof. by rewrite filter_app, length_app. Qed.

Lemma accounting_step (a : action) (m : machine) :
  notifications (step a m) =
    (notifications m + (length (invoked (step a m)) - length (invoked m)))%nat ∧
  (length (invoked m) ≤ length (invoked (step a m)))%nat ∧
  (processing_lines (step a m) + length (held m) + length (handled m) =
   processing_lines m + length (held (step a m)) +
   length (handled (step a m)))%nat.
Proof.
  destruct a as [request callback | id | | | |]; cbn [step];
    try (unfold notifications, processing_lines, invoked, handled, held;
         simpl; lia).
  - unfold worker_dequeue. destruct (pc m) eqn:Hpc; try lia.
    destruct (tasks m); [destruct (done m) |];
      unfold notifications, processing_lines, invoked, handled, held; simpl;
      rewrite ?Hpc, ?filter_app_length, ?omap_app, ?length_app; simpl; lia.
  - unfold worker_execute. destruct (pc m) as [| t |] eqn:Hpc; try lia.
    destruct (flag_set (request_id t) m);
      [| destruct (task t (world m)) as [[] w']];
      unfold notifications, processing_lines, invoked, handled, held; simpl;
      rewrite ?Hpc, ?filter_app_length, ?omap_app, ?length_app; simpl;
      rewrite ?filter_app_length, ?omap_app, ?length_app; simpl;
      rewrite ?filter_app_length, ?omap_app, ?length_app; simpl; lia.
Qed.

(** X17.  The janitor is notified once for every task whose body was
    called, whether it returned or threw, and never for a task that was
    discarded as cancelled; and one "Processing request" line is written for
    every task the worker has taken from the queue, discarded ones
    included. *)
Theorem notifications_match_invoked_tasks (w : World)
    (schedule : list action) :
  notifications (run schedule (init w)) =
    length (invoked (run schedule (init w))) ∧
  processing_lines (run schedule (init w)) =
    (length (handled (run schedule (init w))) +
     length (held (run schedule (init w))))%nat.
Proof.
  assert (Hgen : ∀ s m,
            notifications m = length (invoked m) →
            processing_lines m = (length (handled m) + length (held m))%nat →
            notifications (run s m) = length (invoked (run s m)) ∧
            processing_lines (run s m) =
              (length (handled (run s m)) + length (held (run s m)))%nat).
  { induction s as [| a s IH]; intros m Hn Hp; [done |].
    unfold TaskQueue.run in *. simpl.
    destruct (accounting_step a m) as (H1 & H2 & H3). apply IH; lia. }
  by apply Hgen.
Qed.

Lemma world_step (w0 : World) (a : action) (m : machine) :
  world m = replay w0 (invoked m) →
  world (step a m) = replay w0 (invoked (step a m)).
Proof.
  intros Hw. destruct a as [request callback | id | | | |]; cbn [step];
    try done.
  - unfold worker_dequeue. destruct (pc m); try done.
    destruct (tasks m); [by destruct (done m) |].
    rewrite invoked_record. simpl. by rewrite app_nil_r.
  - unfold worker_execute. destruct (pc m) as [| t |]; try done.
    destruct (flag_set (request_id t) m).
    + rewrite invoked_set_pc, invoked_record. simpl. by rewrite app_nil_r.
    + unfold invoked, replay in *. simpl.
      destruct (task t (world m)) as [res w'] eqn:Hrun.
      destruct res; simpl; rewrite !omap_app; simpl;
        rewrite ?app_nil_r, foldl_app; simpl; by rewrite <- Hw, Hrun.
Qed.

(** X18.  The world is moved by called task bodies and by nothing else:
    after any interleaving on a new queue, it is what results from calling
    the bodies of the invoked tasks one after the other, in the order they
    were invoked, starting from the initial world.  A body that throws keeps
    what it did before throwing; discarded tasks, enqueues, cancellations
    and the destructor leave no mark. *)
Theorem world_is_replay_of_invoked_tasks (w : World)
    (schedule : list action) :
  world (run schedule (init w)) =
  replay w (invoked (run schedule (init w))).
Proof.
  assert (Hgen : ∀ s m, world m = replay w (invoked m) →
            world (run s m) = replay w (invoked (run s m))).
  { induction s as [| a s IH]; intros m Hw; [done |].
    unfold TaskQueue.run in *. simpl. by apply IH, world_step. }
  by apply Hgen.
Qed.

(** X25.  Left alone for at least as many turns as there are queued tasks,
    the worker empties the queue whatever the flag table holds: every queued
    task is handled, in queue order, and the bodies called are exactly those
    of the tasks the flags let through, each set flag stopping the first
    task with its id and no other. *)
Theorem worker_empties_queue (m : machine) (ts : list TaskWrapper)
    (extra : nat) :
  pc m = Waiting → tasks m = ts →
  let m' := process_inference (length ts + extra) m in
  handled m' = handled m ++ ts ∧
  invoked m' = invoked m ++ survivors (cancel_flags m) ts ∧
  tasks m' = [] ∧ held m' = [].
Proof.
  revert m. induction ts as [| t ts IH]; intros m Hpc Hts.
  - cbn zeta. simpl. rewrite !app_nil_r.
    destruct extra as [| extra]; simpl.
    + unfold held. by rewrite Hpc.
    + unfold worker_dequeue. rewrite Hpc, Hts.
      destruct (done m); simpl; unfold held; simpl; by rewrite ?Hpc.
  - cbn zeta. replace (length (t :: ts) + extra)%nat
      with (S (length ts + extra)) by done.
    rewrite (process_inference_turn _ m t ts) by done.
    rewrite (worker_dequeue_pops m t ts) by done.
    destruct (flag_set (request_id t) m) eqn:Hflag.
    + rewrite (worker_execute_discards _ t) by done.
      match goal with |- context [process_inference _ ?x] => set (m2 := x) end.
      destruct (IH m2) as (Hhan & Hinv & Htasks & Hheld); [done | done |].
      cbn zeta in *. rewrite Hhan, Hinv. split; [| split; [| done]].
      * subst m2. unfold handled. simpl. rewrite !omap_app. simpl.
        by rewrite app_nil_r, <- app_assoc.
      * subst m2. unfold invoked. simpl. rewrite !omap_app. simpl.
        rewrite !app_nil_r. f_equal. unfold flag_set in Hflag.
        by destruct (cancel_flags m !! request_id t) as [[] |].
    + rewrite (worker_execute_calls _ t) by done.
      match goal with |- context [process_inference _ ?x] => set (m2 := x) end.
      assert (Hm2 : pc m2 = Waiting ∧ tasks m2 = ts ∧
                    cancel_flags m2 = cancel_flags m ∧
                    handled m2 = handled m ++ [t] ∧
                    invoked m2 = invoked m ++ [t]).
      { subst m2. unfold handled, invoked. simpl.
        destruct (task t (world m)) as [[] w']; simpl;
          rewrite !omap_app; simpl; by rewrite ?app_nil_r. }
      destruct Hm2 as (Hpc2 & Hts2 & Hf2 & Hh2 & Hi2).
      destruct (IH m2 Hpc2 Hts2) as (Hhan & Hinv & Htasks & Hheld).
      cbn zeta in *. rewrite Hhan, Hinv, Hh2, Hi2, Hf2, <- !app_assoc.
      split; [done |]. split; [| done]. f_equal. simpl.
      unfold flag_set in Hflag.
      by destruct (cancel_flags m !! request_id t) as [[] |].
Qed.

End Facts.

(** *** Two scenarios

    Requests 1 and 3 are enqueued and 1 is cancelled before the worker
    starts: only 3 is delivered.  Requests 2 and 3 are enqueued and the body
    of 2 throws: the worker logs it and delivers 3. *)
Example cancel_scenario :
  world (process_inference 5
           (sample_run [Enqueue 1 (); Enqueue 3 (); Cancel 1])) = [3] ∧
  invoked (process_inference 5
             (sample_run [Enqueue 1 (); Enqueue 3 (); Cancel 1])) =
    [sample_task 3].
Proof. vm_compute. done. Qed.

Example failure_scenario :
  world (process_inference 5 (sample_run [Enqueue 2 (); Enqueue 3 ()])) = [3] ∧
  trace (process_inference 5 (sample_run [Enqueue 2 (); Enqueue 3 ()])) =
    [CoutProcessing 2; Invoked (sample_task 2); CerrException "bad request";
     NotifyCleanup;
     CoutProcessing 3; Invoked (sample_task 3); NotifyCleanup] ∧
  pc (process_inference 5 (sample_run [Enqueue 2 (); Enqueue 3 ()])) = Waiting.
Proof. vm_compute. done. Qed.

(** C4 as worded does not hold.  Request 1 is cancelled and enqueued; the
    worker pops it while its flag is set; before the worker reaches its
    check the destructor empties the flag table (lines 17-20); the check
    then finds no flag and the body is called. *)
Lemma cleared_flag_lets_cancelled_task_run :
  cancel_flags (sample_run [Cancel 1; Enqueue 1 ()]) !! 1 = Some true ∧
  tasks (sample_run [Cancel 1; Enqueue 1 ()]) = [sample_task 1] ∧
  invoked (sample_run [Cancel 1; Enqueue 1 (); WorkerDequeue; ClearFlags;
                       WorkerExecute]) = [sample_task 1] ∧
  world (sample_run [Cancel 1; Enqueue 1 (); WorkerDequeue; ClearFlags;
                     WorkerExecute]) = [1] ∧
  ¬ flagged_task_is_never_run id sample_sync.
Proof.
  repeat split; try (vm_compute; reflexivity).
  intros H.
  destruct (H (sample_run [Cancel 1; Enqueue 1 ()]) (sample_task 1) []
              [ClearFlags]) as [_ Hworld].
  - reflexivity.
  - reflexivity.
  - vm_compute. reflexivity.
  - repeat constructor.
  - vm_compute in Hworld. discriminate Hworld.
Qed.

Lemma cancelled_task_is_discarded_witness :
  world
    (worker_execute
       (run id sample_sync [Cancel 1; SignalDone; Enqueue 4 ()]
          (worker_dequeue
             (sample_run [Enqueue 1 (); Enqueue 3 (); Cancel 1])))) = [] ∧
  cancel_flags
    (worker_execute
       (run id sample_sync [Cancel 1; SignalDone; Enqueue 4 ()]
          (worker_dequeue
             (sample_run [Enqueue 1 (); Enqueue 3 (); Cancel 1])))) !! 1 = None.
Proof.
  pose proof (cancelled_task_is_discarded id sample_sync
                (sample_run [Enqueue 1 (); Enqueue 3 (); Cancel 1])
                (sample_task 1) [sample_task 3]
                [Cancel 1; SignalDone; Enqueue 4 ()]) as H.
  cbn zeta in H.
  destruct H as (_ & _ & _ & Hw & Hf & _);
    [reflexivity | reflexivity | vm_compute; reflexivity
    | repeat constructor |].
  split; [exact Hw | exact Hf].
Defined.

Lemma tasks_execute_in_fifo_order_witness :
  invoked (sample_run [Enqueue 1 (); Enqueue 3 (); WorkerDequeue;
                       WorkerExecute; ClearFlags; SignalDone; WorkerDequeue]) =
  handled (sample_run [Enqueue 1 (); Enqueue 3 (); WorkerDequeue;
                       WorkerExecute; ClearFlags; SignalDone; WorkerDequeue]).
Proof.
  pose proof (tasks_execute_in_fifo_order id sample_sync []
                [Enqueue 1 (); Enqueue 3 (); WorkerDequeue; WorkerExecute;
                 ClearFlags; SignalDone; WorkerDequeue] [] 0) as H.
  cbn zeta in H. destruct H as (_ & _ & H & _).
  apply H. repeat constructor.
Defined.

Lemma task_failure_is_contained_witness :
  tasks (worker_execute
           (worker_dequeue (sample_run [Enqueue 2 (); Enqueue 3 ()]))) =
    [sample_task 3] ∧
  pc (worker_dequeue
        (worker_execute
           (worker_dequeue (sample_run [Enqueue 2 (); Enqueue 3 ()])))) =
    Holding (sample_task 3).
Proof.
  pose proof (task_failure_is_contained
                (sample_run [Enqueue 2 (); Enqueue 3 ()])
                (sample_task 2) [sample_task 3]
                (ThrewStdException "bad request") [] 1) as H.
  cbn zeta in H.
  destruct H as (_ & Ht & _ & _ & _ & _ & _ & Hnext);
    [reflexivity | reflexivity | vm_compute; reflexivity | reflexivity
    | discriminate |].
  split; [exact Ht | exact (Hnext (sample_task 3) [] eq_refl)].
Defined.

Lemma flag_persists_until_consumed_witness :
  is_cancelled 9
    (run id sample_sync
       [Enqueue 3 (); WorkerDequeue; WorkerExecute; SignalDone;
        WorkerDequeue; WorkerExecute; WorkerDequeue]
       (cancel 9 (sample_run [Enqueue 1 ()]))) = true.
Proof.
  apply (flag_persists_until_consumed id sample_sync
           [Enqueue 3 (); WorkerDequeue; WorkerExecute; SignalDone;
            WorkerDequeue; WorkerExecute; WorkerDequeue]
           (sample_run [Enqueue 1 ()]) 9).
  - reflexivity.
  - vm_compute. repeat (constructor; [discriminate |]). constructor.
Defined.

Lemma only_cancelled_ids_are_flagged_witness :
  Cancel 1 ∈ [Enqueue 1 (); Cancel 1; Enqueue 3 ()].
Proof.
  apply (only_cancelled_ids_are_flagged id sample_sync []
           [Enqueue 1 (); Cancel 1; Enqueue 3 ()] 1).
  reflexivity.
Defined.

Lemma one_cancel_discards_one_task_witness :
  invoked (process_inference 2
             (sample_run [Enqueue 1 (); Enqueue 1 (); Cancel 1])) =
    [sample_task 1] ∧
  world (process_inference 2
           (sample_run [Enqueue 1 (); Enqueue 1 (); Cancel 1])) = [1].
Proof.
  pose proof (one_cancel_discards_one_task
                (sample_run [Enqueue 1 (); Enqueue 1 (); Cancel 1])
                (sample_task 1) (sample_task 1) []) as H.
  cbn zeta in H.
  destruct H as (_ & H & _);
    [reflexivity | reflexivity | reflexivity | vm_compute; reflexivity |].
  split; [exact H | vm_compute; reflexivity].
Defined.

Lemma destructor_drains_queue_witness :
  invoked (process_inference 3
             (signal_done
                (clear_flags
                   (sample_run [Enqueue 1 (); Enqueue 3 (); Cancel 1])))) =
    [sample_task 1; sample_task 3] ∧
  pc (process_inference 3
        (signal_done
           (clear_flags
              (sample_run [Enqueue 1 (); Enqueue 3 (); Cancel 1])))) = Exited.
Proof.
  pose proof (destructor_drains_queue
                (sample_run [Enqueue 1 (); Enqueue 3 (); Cancel 1])
                [sample_task 1; sample_task 3] 0) as H.
  cbn zeta in H.
  destruct H as (Hi & _ & _ & Hpc); [reflexivity | reflexivity |].
  split; [exact Hi | exact Hpc].
Defined.

Lemma exited_worker_runs_nothing_witness :
  world (run id sample_sync [Enqueue 1 (); WorkerDequeue; WorkerExecute]
           (process_inference 1 (signal_done (init [])))) = [].
Proof.
  destruct (exited_worker_runs_nothing id sample_sync
              [Enqueue 1 (); WorkerDequeue; WorkerExecute]
              (process_inference 1 (signal_done (init []))))
    as (_ & _ & Hw); [reflexivity | exact Hw].
Defined.

Lemma worker_exits_only_after_done_witness :
  SignalDone ∈ [Enqueue 1 (); WorkerDequeue; WorkerExecute; SignalDone;
                WorkerDequeue].
Proof.
  apply (worker_exits_only_after_done id sample_sync []
           [Enqueue 1 (); WorkerDequeue; WorkerExecute; SignalDone;
            WorkerDequeue]).
  vm_compute. reflexivity.
Defined.

Lemma worker_empties_queue_witness :
  invoked (process_inference 4
             (sample_run [Enqueue 1 (); Enqueue 3 (); Enqueue 1 ();
                          Cancel 1; Cancel 8])) =
    [sample_task 3; sample_task 1] ∧
  tasks (process_inference 4
           (sample_run [Enqueue 1 (); Enqueue 3 (); Enqueue 1 ();
                        Cancel 1; Cancel 8])) = [].
Proof.
  pose proof (worker_empties_queue
                (sample_run [Enqueue 1 (); Enqueue 3 (); Enqueue 1 ();
                             Cancel 1; Cancel 8])
                [sample_task 1; sample_task 3; sample_task 1] 1) as H.
  cbn zeta in H.
  destruct H as (_ & Hi & Ht & _); [reflexivity | reflexivity |].
  split; [| exact Ht].
  etrans; [exact Hi | vm_compute; reflexivity].
Defined.

End TaskQueueProofs.

(** ** Properties of the tokenizer and its cache *)

Module TokenizeProofs.
Import Chrono Tokenize.

(** *** Facts about the tokenizer cache *)

(** The comparison of line 104 is on whole seconds: it holds from the 31st
    second on. *)
Lemma elapsed_exceeds_30 (now last : Z) :
  30 < elapsed_seconds now last ↔ 31 * ticks_per_second ≤ now - last.
Proof.
  unfold elapsed_seconds, ticks_per_second.
  destruct (Z_lt_le_dec (now - last) 0) as [Hneg | Hpos].
  - assert ((now - last) `quot` 1000000000 ≤ 0)
      by (apply Z.quot_le_upper_bound; lia).
    lia.
  - rewrite Z.quot_div_nonneg by lia.
    split; intros H.
    + pose proof (Z.mul_div_le (now - last) 1000000000 ltac:(lia)). nia.
    + assert (31 ≤ (now - last) `div` 1000000000); [| lia].
      apply Z.div_le_lower_bound; lia.
Qed.

Lemma erase_lookup (key k : string) (st : state) :
  model_cache (erase key st) !! k =
  if decide (k = key) then None else model_cache st !! k.
Proof.
  unfold erase. destruct (model_cache st !! key) as [e |] eqn:He; simpl.
  - rewrite lookup_delete. case_decide; case_decide; congruence.
  - case_decide; congruence.
Qed.

Lemma erase_effects (key : string) (st : state) :
  ∃ more, effects (erase key st) = effects st ++ more.
Proof.
  unfold erase. destruct (model_cache st !! key); simpl; eauto.
  exists []. by rewrite app_nil_r.
Qed.

Lemma erase_all_lookup (l : list string) (k : string) (st : state) :
  model_cache (foldl (λ s key, erase key s) st l) !! k =
  if decide (k ∈ l) then None else model_cache st !! k.
Proof.
  revert st. induction l as [| p l IH]; intros st; simpl.
  - done.
  - rewrite IH, erase_lookup.
    destruct (decide (k ∈ l)) as [Hin | Hnin].
    + rewrite decide_True; [done |]. by apply list_elem_of_further.
    + destruct (decide (k = p)) as [-> | Hne].
      * rewrite decide_True; [done |]. apply list_elem_of_here.
      * rewrite decide_False; [done |].
        intros Hin. apply elem_of_cons in Hin as [? | ?]; done.
Qed.

Lemma erase_all_effects (l : list string) (st : state) :
  ∃ more, effects (foldl (λ s key, erase key s) st l) = effects st ++ more.
Proof.
  revert st. induction l as [| p l IH]; intros st; simpl.
  - exists []. by rewrite app_nil_r.
  - destruct (IH (erase p st)) as [m2 H2].
    destruct (erase_effects p st) as [m1 H1].
    exists (m1 ++ m2). by rewrite H2, H1, app_assoc.
Qed.

Lemma cleanup_scan (now : Z) (entries : list (string * ModelCacheEntry))
    (acc : list string) (k : string) :
  k ∈ foldl (cleanup_visit now) acc entries ↔
  k ∈ acc ∨ ∃ e, (k, e) ∈ entries ∧ 30 < elapsed_seconds now (last_access e).
Proof.
  revert acc. induction entries as [| [p e] entries IH]; intros acc; simpl.
  - split; [by left |].
    intros [? | (e & Hin & _)]; [done | by apply not_elem_of_nil in Hin].
  - rewrite IH. unfold cleanup_visit. simpl.
    destruct (Z.ltb_spec 30 (elapsed_seconds now (last_access e))) as [Hold | Hnew].
    + split.
      * intros [Hin | (e' & Hin & He')].
        -- apply elem_of_app in Hin as [Hin | Hin]; [by left |].
           apply list_elem_of_singleton in Hin as ->. right. exists e.
           split; [apply list_elem_of_here | done].
        -- right. exists e'. split; [by apply list_elem_of_further | done].
      * intros [Hin | (e' & Hin & He')].
        -- left. apply elem_of_app. by left.
        -- apply elem_of_cons in Hin as [Heq | Hin].
           ++ injection Heq as -> ->. left. apply elem_of_app. right.
              by apply list_elem_of_singleton.
           ++ right. by exists e'.
    + split.
      * intros [Hin | (e' & Hin & He')]; [by left |].
        right. exists e'. split; [by apply list_elem_of_further | done].
      * intros [Hin | (e' & Hin & He')]; [by left |].
        apply elem_of_cons in Hin as [Heq | Hin].
        -- injection Heq as -> ->. lia.
        -- right. by exists e'.
Qed.

Lemma cleanup_cache_lookup (now : Z) (k : string) (st : state) :
  model_cache (cleanup_cache now st) !! k =
  match model_cache st !! k with
  | Some e =>
      if decide (30 < elapsed_seconds now (last_access e)) then None else Some e
  | None => None
  end.
Proof.
  unfold cleanup_cache. rewrite erase_all_lookup.
  destruct (model_cache st !! k) as [e |] eqn:He.
  - apply decide_ext. rewrite cleanup_scan. split.
    + intros [Hin | (e' & Hin & He')]; [by apply not_elem_of_nil in Hin |].
      apply elem_of_map_to_list in Hin. by assert (e' = e) as -> by congruence.
    + intros Hold. right. exists e. split; [by apply elem_of_map_to_list | done].
  - by case_decide.
Qed.

Lemma cleanup_cache_effects (now : Z) (st : state) :
  ∃ more, effects (cleanup_cache now st) = effects st ++ more.
Proof. apply erase_all_effects. Qed.

(** What a lookup returns and leaves behind, by the state of the table
    after the cleanup. *)
Lemma get_or_load_hit (load : string → Z) (now now' : Z) (path : string)
    (st : state) (e : ModelCacheEntry) :
  model_cache (cleanup_cache now st) !! path = Some e →
  _get_or_load_model load now now' path st =
    (model e,
     set_model_cache
       (<[path := {| model := model e; last_access := now' |}]>
          (model_cache (cleanup_cache now st))) (cleanup_cache now st)).
Proof. intros H. unfold _get_or_load_model. by rewrite H. Qed.

Lemma get_or_load_miss (load : string → Z) (now now' : Z) (path : string)
    (st : state) :
  model_cache (cleanup_cache now st) !! path = None →
  _get_or_load_model load now now' path st =
    let st2 :=
      emit (llama_load_model_from_file path)
        (emit llama_backend_init (cleanup_cache now st)) in
    if load path =? nullptr then (nullptr, st2)
    else
      (load path,
       emit llama_backend_free
         (set_model_cache
            (<[path := {| model := load path; last_access := now' |}]>
               (model_cache st2)) st2)).
Proof. intros H. unfold _get_or_load_model. by rewrite H. Qed.

(** *** The claims *)

(** C9 as worded does not hold.  ["x.gguf"] was last accessed at time [0];
    a lookup 30.5 seconds later finds an elapsed time of 30 whole seconds,
    which does not exceed 30: the entry is kept, the lookup is a hit that
    returns the cached address [7], and nothing is loaded or freed. *)
Lemma stale_entry_is_still_served :
  model_cache warm_cache !! "x.gguf" = Some {| model := 7; last_access := 0 |} ∧
  30 * ticks_per_second < 30500000000 - 0 ∧
  elapsed_seconds 30500000000 0 = 30 ∧
  (_get_or_load_model (λ _, 9) 30500000000 30500000000 "x.gguf" warm_cache).1
    = 7 ∧
  effects
    (_get_or_load_model (λ _, 9) 30500000000 30500000000 "x.gguf" warm_cache).2
    = effects warm_cache ∧
  ¬ reloads_after_30_seconds.
Proof.
  repeat split; try (vm_compute; reflexivity).
  intros H.
  destruct (H (λ _, 9) 30500000000 30500000000 "x.gguf" warm_cache
              {| model := 7; last_access := 0 |}) as [Hgone _].
  - vm_compute. reflexivity.
  - vm_compute. reflexivity.
  - vm_compute in Hgone. discriminate Hgone.
Qed.

(** C9, amended.  A lookup first removes exactly the entries whose elapsed
    time since the last access, in whole seconds, exceeds 30, that is the
    entries last accessed 31 seconds ago or earlier, and leaves the others
    as they are.  Then it serves the path: on a hit it returns the cached
    address and restamps the entry without loading anything; on a miss it
    loads the model and, if that succeeds, inserts it.  So a path whose entry
    is at least 31 seconds old is loaded anew, and one whose entry is younger
    is served from the table. *)
Theorem tokenizer_lookup_evicts_then_serves (load : string → Z)
    (now now' : Z) (path : string) (st : state) :
  let cleaned := cleanup_cache now st in
  let got := _get_or_load_model load now now' path st in
  (∀ k e, model_cache st !! k = Some e →
     (model_cache cleaned !! k = None ↔
        30 < elapsed_seconds now (last_access e)) ∧
     (30 < elapsed_seconds now (last_access e) ↔
        31 * ticks_per_second ≤ now - last_access e) ∧
     (model_cache cleaned !! k ≠ None → model_cache cleaned !! k = Some e)) ∧
  (∀ k, model_cache st !! k = None → model_cache cleaned !! k = None) ∧
  (∀ e, model_cache cleaned !! path = Some e →
     got.1 = model e ∧
     model_cache got.2 =
       <[path := {| model := model e; last_access := now' |}]>
         (model_cache cleaned) ∧
     effects got.2 = effects cleaned) ∧
  (model_cache cleaned !! path = None → load path ≠ nullptr →
     got.1 = load path ∧
     model_cache got.2 =
       <[path := {| model := load path; last_access := now' |}]>
         (model_cache cleaned) ∧
     effects got.2 =
       effects cleaned ++ [llama_backend_init;
                           llama_load_model_from_file path;
                           llama_backend_free]) ∧
  (∀ e, model_cache st !! path = Some e →
     31 * ticks_per_second ≤ now - last_access e →
     got.1 = load path ∧ llama_load_model_from_file path ∈ effects got.2) ∧
  (∀ e, model_cache st !! path = Some e →
     now - last_access e < 31 * ticks_per_second →
     got.1 = model e ∧ effects got.2 = effects cleaned).
Proof.
  cbn zeta. split; [| split; [| split; [| split; [| split]]]].
  - intros k e He. rewrite cleanup_cache_lookup, He. split; [| split].
    + case_decide; [done |]. split; [done | tauto].
    + apply elapsed_exceeds_30.
    + by case_decide.
  - intros k Hk. by rewrite cleanup_cache_lookup, Hk.
  - intros e He. by rewrite (get_or_load_hit _ _ _ _ _ e He).
  - intros Hmiss Hload. rewrite (get_or_load_miss _ _ _ _ _ Hmiss). cbn zeta.
    destruct (Z.eqb_spec (load path) nullptr); [done |]. simpl.
    by rewrite <- !app_assoc.
  - intros e He Hold.
    assert (Hmiss : model_cache (cleanup_cache now st) !! path = None).
    { rewrite cleanup_cache_lookup, He.
      rewrite decide_True; [done |]. by apply elapsed_exceeds_30. }
    rewrite (get_or_load_miss _ _ _ _ _ Hmiss). cbn zeta.
    destruct (Z.eqb_spec (load path) nullptr) as [Hnull | Hok]; simpl.
    + split; [done |]. apply elem_of_app. right. apply list_elem_of_here.
    + split; [done |]. apply elem_of_app. left. apply elem_of_app. right.
      apply list_elem_of_here.
  - intros e He Hyoung.
    assert (Hhit : model_cache (cleanup_cache now st) !! path = Some e).
    { rewrite cleanup_cache_lookup, He.
      rewrite decide_False; [done |]. rewrite elapsed_exceeds_30. lia. }
    by rewrite (get_or_load_hit _ _ _ _ _ e Hhit).
Qed.

Lemma tokenizer_lookup_evicts_then_serves_witness :
  (_get_or_load_model (λ _, 9) 31000000000 31000000001 "x.gguf" warm_cache).1
    = 9 ∧
  (_get_or_load_model (λ _, 9) 30999999999 31000000000 "x.gguf" warm_cache).1
    = 7.
Proof.
  split.
  - pose proof (tokenizer_lookup_evicts_then_serves
                  (λ _, 9) 31000000000 31000000001 "x.gguf" warm_cache) as H.
    cbn zeta in H. destruct H as (_ & _ & _ & _ & H & _).
    apply (H {| model := 7; last_access := 0 |});
      vm_compute; [reflexivity | discriminate].
  - pose proof (tokenizer_lookup_evicts_then_serves
                  (λ _, 9) 30999999999 31000000000 "x.gguf" warm_cache) as H.
    cbn zeta in H. destruct H as (_ & _ & _ & _ & _ & H).
    apply (H {| model := 7; last_access := 0 |}); vm_compute; reflexivity.
Defined.

(** C10.  When the lookup yields no model, [fllama_tokenize] returns [-1]
    converted to [size_t], that is [2 ^ size_t_bits - 1]; when the tokenizer
    returns a negative count it returns [0]; otherwise it returns the count.
    When the lookup misses and the load fails, the table is what the cleanup
    left, without an entry for the path, and the next lookup of the path
    calls the loader again and returns what it yields. *)
Theorem fllama_tokenize_result (size_t_bits : Z)
    (llama_tokenize : Z → string → Z → Z → Z) (load : string → Z)
    (now now' : Z) (request : fllama_tokenize_request) (st : state) :
  let path := model_path request in
  let got := _get_or_load_model load now now' path st in
  let input_len := Z.of_nat (String.length (input request)) in
  let n_tokens :=
    llama_tokenize got.1 (input request) input_len
      (to_size_t size_t_bits (input_len + 3)) in
  let result :=
    (fllama_tokenize size_t_bits llama_tokenize load now now' request st).1 in
  (got.1 = nullptr → result = 2 ^ size_t_bits - 1) ∧
  (got.1 ≠ nullptr → n_tokens < 0 → result = 0) ∧
  (got.1 ≠ nullptr → 0 ≤ n_tokens < 2 ^ size_t_bits → result = n_tokens) ∧
  (model_cache (cleanup_cache now st) !! path = None → load path = nullptr →
     got.1 = nullptr ∧
     model_cache got.2 = model_cache (cleanup_cache now st) ∧
     model_cache got.2 !! path = None ∧
     ∀ (load2 : string → Z) (now2 now2' : Z),
       let again := _get_or_load_model load2 now2 now2' path got.2 in
       again.1 = load2 path ∧
       ∃ more,
         effects again.2 =
           effects (cleanup_cache now2 got.2) ++
             [llama_backend_init; llama_load_model_from_file path] ++ more).
Proof.
  cbn zeta. unfold fllama_tokenize.
  split; [| split; [| split]].
  - intros Hnull. rewrite Hnull. simpl. unfold to_size_t.
    destruct (Z_lt_le_dec size_t_bits 0) as [Hneg | Hpos].
    + rewrite Z.pow_neg_r by done. by rewrite Z.mod_0_r.
    + assert (0 < 2 ^ size_t_bits) by (apply Z.pow_pos_nonneg; lia).
      replace (-1) with (2 ^ size_t_bits - 1 + -1 * 2 ^ size_t_bits) by lia.
      rewrite Z.mod_add by lia. apply Z.mod_small. lia.
  - intros Hok Hneg. destruct (Z.eqb_spec (_get_or_load_model load now now'
                                  (model_path request) st).1 nullptr);
      [done |].
    destruct (Z.ltb_spec (llama_tokenize
                (_get_or_load_model load now now' (model_path request) st).1
                (input request) (Z.of_nat (String.length (input request)))
                (to_size_t size_t_bits
                   (Z.of_nat (String.length (input request)) + 3))) 0);
      [done | lia].
  - intros Hok Hrange. destruct (Z.eqb_spec (_get_or_load_model load now now'
                                  (model_path request) st).1 nullptr);
      [done |].
    destruct (Z.ltb_spec (llama_tokenize
                (_get_or_load_model load now now' (model_path request) st).1
                (input request) (Z.of_nat (String.length (input request)))
                (to_size_t size_t_bits
                   (Z.of_nat (String.length (input request)) + 3))) 0);
      [lia |].
    simpl. unfold to_size_t at 1. apply Z.mod_small. exact Hrange.
  - intros Hmiss Hfail. rewrite (get_or_load_miss _ _ _ _ _ Hmiss). cbn zeta.
    rewrite Hfail. simpl. split; [done |]. split; [done |]. split; [done |].
    intros load2 now2 now2'.
    set (st2 := emit _ _).
    assert (Hmiss2 : model_cache (cleanup_cache now2 st2) !! model_path request
                     = None).
    { rewrite cleanup_cache_lookup. subst st2. simpl. by rewrite Hmiss. }
    rewrite (get_or_load_miss _ _ _ _ _ Hmiss2). cbn zeta.
    destruct (Z.eqb_spec (load2 (model_path request)) nullptr) as [Hn | Hn];
      simpl.
    + split; [done |]. exists []. by rewrite <- app_assoc.
    + split; [done |]. exists [llama_backend_free]. by rewrite <- !app_assoc.
Qed.

Lemma fllama_tokenize_result_witness :
  (fllama_tokenize 64 sample_tokenizer (λ _, 0) 5 5
     {| model_path := "y.gguf"; input := "hello" |} warm_cache).1 =
    18446744073709551615 ∧
  (fllama_tokenize 64 sample_tokenizer (λ _, 0) 5 5
     {| model_path := "x.gguf"; input := "" |} warm_cache).1 = 0 ∧
  (fllama_tokenize 64 sample_tokenizer (λ _, 0) 5 5
     {| model_path := "x.gguf"; input := "hello" |} warm_cache).1 = 5.
Proof.
  split; [| split].
  - pose proof (fllama_tokenize_result 64 sample_tokenizer (λ _, 0) 5 5
                  {| model_path := "y.gguf"; input := "hello" |} warm_cache)
      as H.
    cbn zeta in H. destruct H as (H & _). apply H. vm_compute. reflexivity.
  - pose proof (fllama_tokenize_result 64 sample_tokenizer (λ _, 0) 5 5
                  {| model_path := "x.gguf"; input := "" |} warm_cache) as H.
    cbn zeta in H. destruct H as (_ & H & _).
    apply H; vm_compute; [discriminate | reflexivity].
  - pose proof (fllama_tokenize_result 64 sample_tokenizer (λ _, 0) 5 5
                  {| model_path := "x.gguf"; input := "hello" |} warm_cache)
      as H.
    cbn zeta in H. destruct H as (_ & _ & H & _).
    apply H; vm_compute; [discriminate | split; [discriminate | reflexivity]].
Defined.

(** *** Further properties: what a cleanup frees *)

Lemma cleanup_scan_list (now : Z) (entries : list (string * ModelCacheEntry))
    (acc : list string) :
  foldl (cleanup_visit now) acc entries =
  acc ++ (filter (expired now) entries).*1.
Proof.
  revert acc. induction entries as [| kv entries IH]; intros acc.
  - simpl. by rewrite app_nil_r.
  - simpl. rewrite IH, filter_cons. unfold cleanup_visit, expired.
    destruct (Z.ltb_spec 30 (elapsed_seconds now (last_access kv.2))).
    + rewrite decide_True by done. simpl. by rewrite <- app_assoc.
    + rewrite decide_False by lia. done.
Qed.

Lemma erase_all_frees (l : list (string * ModelCacheEntry)) (st : state) :
  NoDup l.*1 →
  (∀ kv, kv ∈ l → model_cache st !! kv.1 = Some kv.2) →
  effects (foldl (λ s key, erase key s) st l.*1) =
  effects st ++ map (λ kv, llama_free_model (model kv.2)) l.
Proof.
  revert st. induction l as [| [k e] l IH]; intros st Hnd Hin.
  - simpl. by rewrite app_nil_r.
  - simpl in *. apply NoDup_cons in Hnd as [Hk Hnd].
    assert (He : model_cache st !! k = Some e)
      by apply (Hin (k, e)), list_elem_of_here.
    rewrite IH; [| done |].
    + unfold erase. rewrite He. simpl. by rewrite <- app_assoc.
    + intros kv Hkv. rewrite erase_lookup. rewrite decide_False.
      * apply Hin. by apply list_elem_of_further.
      * intros Heq. apply Hk. rewrite <- Heq.
        by apply list_elem_of_fmap_2.
Qed.

Lemma cleanup_cache_effects_exact (now : Z) (st : state) :
  effects (cleanup_cache now st) =
  effects st ++
  map (λ kv, llama_free_model (model kv.2))
    (filter (expired now) (map_to_list (model_cache st))).
Proof.
  unfold cleanup_cache. rewrite cleanup_scan_list. simpl.
  apply erase_all_frees.
  - apply (sublist_NoDup _ (map_to_list (model_cache st)).*1);
      [apply NoDup_fst_map_to_list |].
    apply fmap_sublist, sublist_filter.
  - intros [k e] Hkv. apply list_elem_of_filter in Hkv as [_ Hkv].
    by apply elem_of_map_to_list.
Qed.

(** X19.  A cleanup frees what it evicts and nothing else: the calls it
    adds are, in some order, exactly one [llama_free_model] per evicted
    entry, on that entry's model, so the model of every evicted entry has
    been freed when the cleanup returns (the table being the only owner of
    its models).  The order of the calls is that of the table's iteration,
    about which nothing is stated. *)
Theorem cleanup_frees_each_evicted_model (now : Z) (st : state) :
  ∃ more,
    effects (cleanup_cache now st) = effects st ++ more ∧
    more ≡ₚ map (λ kv, llama_free_model (model kv.2))
              (filter (λ kv, 30 < elapsed_seconds now (last_access kv.2))
                 (map_to_list (model_cache st))) ∧
    ∀ k e, model_cache st !! k = Some e →
           model_cache (cleanup_cache now st) !! k = None →
           llama_free_model (model e) ∈ more.
Proof.
  eexists. split; [apply cleanup_cache_effects_exact |]. split; [done |].
  intros k e He Hgone.
  apply (list_elem_of_fmap_2 (λ kv, llama_free_model (model kv.2)) _ (k, e)).
  apply list_elem_of_filter. split; [| by apply elem_of_map_to_list].
  rewrite cleanup_cache_lookup, He in Hgone. unfold expired. simpl.
  by case_decide.
Qed.

Lemma cleanup_cache_loads (now : Z) (st : state) :
  filter (λ e, is_load e = true) (effects (cleanup_cache now st)) =
  filter (λ e, is_load e = true) (effects st).
Proof.
  rewrite cleanup_cache_effects_exact.
  rewrite filter_app.
  induction (filter (expired now) (map_to_list (model_cache st)))
    as [| kv l IH]; simpl; [by rewrite app_nil_r |].
  rewrite filter_cons, decide_False by done. exact IH.
Qed.

(** *** Further properties: what the table holds *)

Lemma get_or_load_cache (load : string → Z) (now now' : Z) (path : string)
    (st : state) (k : string) :
  model_cache (_get_or_load_model load now now' path st).2 !! k =
  if decide (path = k) then
    match model_cache (cleanup_cache now st) !! path with
    | Some e => Some {| model := model e; last_access := now' |}
    | None => if load path =? nullptr then None
              else Some {| model := load path; last_access := now' |}
    end
  else model_cache (cleanup_cache now st) !! k.
Proof.
  unfold _get_or_load_model.
  destruct (model_cache (cleanup_cache now st) !! path) as [e |] eqn:He.
  - simpl. apply lookup_insert.
  - cbn zeta. destruct (load path =? nullptr); simpl.
    + case_decide; [by subst |]; done.
    + apply lookup_insert.
Qed.

(** X20.  After a lookup the table holds nothing stale: an entry found in
    it is either the requested path, stamped by this lookup, or an entry
    that was there before, is unchanged (a hit on one path does not refresh
    another) and was accessed at most 30 whole seconds before the lookup. *)
Theorem lookup_leaves_no_stale_entry (load : string → Z) (now now' : Z)
    (path : string) (st : state) (k : string) (e : ModelCacheEntry) :
  model_cache (_get_or_load_model load now now' path st).2 !! k = Some e →
  (k = path ∧ last_access e = now') ∨
  (k ≠ path ∧ model_cache st !! k = Some e ∧
   elapsed_seconds now (last_access e) ≤ 30).
Proof.
  rewrite get_or_load_cache. case_decide as Hk.
  - subst k. intros He. left. split; [done |].
    destruct (model_cache (cleanup_cache now st) !! path);
      [by injection He as <- |].
    destruct (load path =? nullptr); [done | by injection He as <-].
  - rewrite cleanup_cache_lookup. intros He. right. split; [done |].
    destruct (model_cache st !! k) as [e0 |]; [| done].
    case_decide; [done |]. injection He as ->. split; [done | lia].
Qed.

Lemma lookup_leaves_no_stale_entry_witness :
  ("x.gguf" = "y.gguf" ∧ 0 = 20000000001) ∨
  ("x.gguf" ≠ "y.gguf" ∧
   model_cache warm_cache !! "x.gguf"
     = Some {| model := 7; last_access := 0 |} ∧
   elapsed_seconds 20000000000 0 ≤ 30).
Proof.
  apply (lookup_leaves_no_stale_entry (λ _, 9) 20000000000 20000000001
           "y.gguf" warm_cache "x.gguf" {| model := 7; last_access := 0 |}).
  vm_compute. reflexivity.
Defined.

Lemma no_null_entries_lookup (load : string → Z) (now now' : Z)
    (path : string) (st : state) :
  no_null_entries st →
  no_null_entries (_get_or_load_model load now now' path st).2.
Proof.
  intros Hinv k e. rewrite get_or_load_cache.
  assert (Hclean : ∀ k' e', model_cache (cleanup_cache now st) !! k' = Some e' →
                            model e' ≠ nullptr).
  { intros k' e'. rewrite cleanup_cache_lookup.
    destruct (model_cache st !! k') as [e0 |] eqn:He0; [| done].
    case_decide; [done |]. intros [= <-]. by apply (Hinv k'). }
  case_decide as Hk; [| apply Hclean].
  destruct (model_cache (cleanup_cache now st) !! path) as [e0 |] eqn:He0.
  - intros [= <-]. simpl. by apply (Hclean path).
  - destruct (Z.eqb_spec (load path) nullptr); [done |]. by intros [= <-].
Qed.

(** X21.  The table never holds a null model.  Starting from a table
    without null entries (the empty one, for instance), this holds after any
    sequence of lookups, whatever the loader returns in each of them; so a
    lookup returns null exactly when the path is not cached after the
    cleanup and the load fails. *)
Theorem tokenizer_cache_never_holds_null (calls : list lookup_call)
    (st : state) :
  no_null_entries st →
  no_null_entries (run_lookups calls st) ∧
  ∀ load now now' path,
    (_get_or_load_model load now now' path (run_lookups calls st)).1 = nullptr
    ↔ model_cache (cleanup_cache now (run_lookups calls st)) !! path = None ∧
      load path = nullptr.
Proof.
  intros Hinv.
  assert (Hrun : no_null_entries (run_lookups calls st)).
  { revert st Hinv. induction calls as [| c calls IH]; intros st Hinv; [done |].
    unfold run_lookups in *. simpl. by apply IH, no_null_entries_lookup. }
  split; [done |]. intros load now now' path.
  set (s := run_lookups calls st) in *.
  destruct (model_cache (cleanup_cache now s) !! path) as [e |] eqn:He.
  - rewrite (get_or_load_hit _ _ _ _ _ e He). simpl. split; [| by intros [? _]].
    intros Hnull. exfalso. revert He. rewrite cleanup_cache_lookup.
    destruct (model_cache s !! path) as [e0 |] eqn:He0; [| done].
    case_decide; [done |]. intros [= <-]. by apply (Hrun path e0).
  - rewrite (get_or_load_miss _ _ _ _ _ He). cbn zeta.
    destruct (Z.eqb_spec (load path) nullptr); simpl; [done |].
    split; [done | by intros [_ ?]].
Qed.

Lemma tokenizer_cache_never_holds_null_witness :
  no_null_entries
    (run_lookups
       [{| call_load := λ _, 0; call_now := 1; call_stamp := 2;
           call_path := "x.gguf" |};
        {| call_load := λ _, 7; call_now := 3; call_stamp := 4;
           call_path := "x.gguf" |}] empty_cache).
Proof.
  apply (tokenizer_cache_never_holds_null
           [{| call_load := λ _, 0; call_now := 1; call_stamp := 2;
               call_path := "x.gguf" |};
            {| call_load := λ _, 7; call_now := 3; call_stamp := 4;
               call_path := "x.gguf" |}] empty_cache).
  intros k e H. simpl in H. by rewrite lookup_empty in H.
Defined.

(** X22.  A model that keeps being asked for is loaded once.  When a path
    is cached and every lookup of it comes less than 31 seconds after the
    stamp left by the previous one, every lookup returns the cached address,
    the path stays cached, and [llama_load_model_from_file] is not called
    at all. *)
Theorem frequently_used_model_is_loaded_once (load : string → Z)
    (path : string) (times : list (Z * Z)) (st : state)
    (e : ModelCacheEntry) :
  model_cache st !! path = Some e →
  in_time (last_access e) times →
  Forall (λ h, h = model e) (serve load path times st).1 ∧
  filter (λ ev, is_load ev = true) (effects (serve load path times st).2) =
    filter (λ ev, is_load ev = true) (effects st) ∧
  ∃ e', model_cache (serve load path times st).2 !! path = Some e' ∧
        model e' = model e.
Proof.
  revert st e. induction times as [| [now stamp] times IH];
    intros st e He Htime.
  - simpl. split; [done |]. split; [done |]. by exists e.
  - simpl in Htime. destruct Htime as [Hsoon Hrest]. cbn [serve]. cbn zeta.
    assert (Hhit : model_cache (cleanup_cache now st) !! path = Some e).
    { rewrite cleanup_cache_lookup, He.
      rewrite decide_False; [done |]. rewrite elapsed_exceeds_30. lia. }
    rewrite (get_or_load_hit _ _ _ _ _ e Hhit). cbn [fst snd].
    destruct (IH (set_model_cache
                    (<[path := {| model := model e; last_access := stamp |}]>
                       (model_cache (cleanup_cache now st)))
                    (cleanup_cache now st))
                {| model := model e; last_access := stamp |})
      as (Hall & Hloads & e' & He' & Hm); [| done |].
    + simpl. by rewrite lookup_insert_eq.
    + simpl in *. split; [by constructor |]. split; [| by exists e'].
      rewrite Hloads. apply cleanup_cache_loads.
Qed.

Lemma frequently_used_model_is_loaded_once_witness :
  Forall (λ h, h = 7)
    (serve (λ _, 9) "x.gguf"
       [(30000000000, 30000000001); (60000000000, 60000000002);
        (91000000000, 91000000001)] warm_cache).1.
Proof.
  apply (proj1 (frequently_used_model_is_loaded_once (λ _, 9) "x.gguf"
                  [(30000000000, 30000000001); (60000000000, 60000000002);
                   (91000000000, 91000000001)] warm_cache
                  {| model := 7; last_access := 0 |}
                  ltac:(vm_compute; reflexivity)
                  ltac:(vm_compute; repeat split))).
Defined.

(** *** Further properties: the value returned by [fllama_tokenize] *)

Lemma to_size_t_minus_one (size_t_bits : Z) :
  to_size_t size_t_bits (-1) = 2 ^ size_t_bits - 1.
Proof.
  unfold to_size_t.
  destruct (Z_lt_le_dec size_t_bits 0) as [Hneg | Hpos].
  - rewrite Z.pow_neg_r by done. by rewrite Z.mod_0_r.
  - assert (0 < 2 ^ size_t_bits) by (apply Z.pow_pos_nonneg; lia).
    replace (-1) with (2 ^ size_t_bits - 1 + -1 * 2 ^ size_t_bits) by lia.
    rewrite Z.mod_add by lia. apply Z.mod_small. lia.
Qed.

(** X23.  The value [2 ^ size_t_bits - 1] is an unambiguous failure
    signal.  With a [size_t] of at least 32 bits and a tokenizer whose
    result is an [int] (below [2 ^ 31]), [fllama_tokenize] returns that value
    exactly when no model could be obtained; every other outcome, a
    tokenizer error included, gives a value below [2 ^ 31]. *)
Theorem max_size_t_means_no_model (size_t_bits : Z)
    (llama_tokenize : Z → string → Z → Z → Z) (load : string → Z)
    (now now' : Z) (request : fllama_tokenize_request) (st : state) :
  32 ≤ size_t_bits →
  (∀ m text len capacity, llama_tokenize m text len capacity < 2 ^ 31) →
  let result :=
    (fllama_tokenize size_t_bits llama_tokenize load now now' request st).1 in
  let got := _get_or_load_model load now now' (model_path request) st in
  (result = 2 ^ size_t_bits - 1 ↔ got.1 = nullptr) ∧
  (got.1 ≠ nullptr → 0 ≤ result < 2 ^ 31).
Proof.
  intros Hbits Hint. cbn zeta. unfold fllama_tokenize.
  assert (Hpow : 2 ^ 32 ≤ 2 ^ size_t_bits)
    by (apply Z.pow_le_mono_r; lia).
  change (2 ^ 32) with 4294967296 in Hpow.
  destruct (Z.eqb_spec (_get_or_load_model load now now'
                          (model_path request) st).1 nullptr) as [Hn | Hn].
  - simpl. rewrite to_size_t_minus_one. by split.
  - match goal with |- context [llama_tokenize ?a ?b ?c ?d] =>
      pose proof (Hint a b c d) as Hlt;
      set (n := llama_tokenize a b c d) in *
    end.
    change (2 ^ 31) with 2147483648 in *.
    destruct (Z.ltb_spec n 0) as [Hneg | Hpos]; simpl.
    + split; [split; [lia | done] | lia].
    + assert (Hsmall : to_size_t size_t_bits n = n)
        by (unfold to_size_t; apply Z.mod_small; lia).
      rewrite Hsmall. split; [split; [lia | done] | lia].
Qed.

Lemma max_size_t_means_no_model_witness :
  (fllama_tokenize 32 (λ _ _ _ _, 3) (λ _, 0) 5 5
     {| model_path := "y.gguf"; input := "hello" |} warm_cache).1 =
    2 ^ 32 - 1 ↔
  (_get_or_load_model (λ _, 0) 5 5 "y.gguf" warm_cache).1 = nullptr.
Proof.
  pose proof (max_size_t_means_no_model 32 (λ _ _ _ _, 3) (λ _, 0) 5 5
                {| model_path := "y.gguf"; input := "hello" |} warm_cache)
    as H.
  cbn zeta in H. apply H.
  - vm_compute. discriminate.
  - intros m text len capacity. reflexivity.
Defined.

End TokenizeProofs.
